(** * reversegrpc: rendering .proto text from file descriptors

    A shallow embedding of [reverse.py].  The renderer writes text to an
    open file object [proto]; here every rendering procedure is a
    computation in a small writer-with-exceptions monad whose result is the
    text written so far together with either an exception or a value.  The
    descriptor walker threads the set of processed names and the state of
    the output root explicitly. *)

From Stdlib Require Import ZArith Ascii.
From Stdlib Require String List.
From stdpp Require Import base decidable option list strings pretty gmap.

Local Open Scope Z_scope.
Set Warnings "-clear-no-such-hyp".

(** ** Python runtime: exceptions, strings, paths *)

Inductive error : Type :=
  | NameError (msg : string)      (* raise NameError(msg) *)
  | KeyError (key : Z)            (* failed dict lookup *)
  | IndexError                    (* sequence index out of range *)
  | TypeError (msg : string)      (* unsupported protocol on an object *)
  | ValueError (msg : string)     (* pathlib: not a subpath *)
  | DecodeError                   (* ParseFromString on malformed bytes *)
  | LoopBudget.                   (* the model's loop budget ran out *)

Definition result (A : Type) : Type := (error + A)%type.

(** The quote character, chr(34). *)
Definition dquote : string := String "034"%char EmptyString.

(** The newline character. *)
Definition nl : string := String "010"%char EmptyString.

(** [s.split(sep=c)] for a one-character separator: never the empty list. *)
Fixpoint split (sep : ascii) (s : string) : list string :=
  match s with
  | EmptyString => [EmptyString]
  | String c rest =>
      if Ascii.eqb c sep then EmptyString :: split sep rest
      else match split sep rest with
           | seg :: segs => String c seg :: segs
           | [] => [String c EmptyString]
           end
  end.

(** [l[-1]] on the list a split returns. *)
Definition last_item (l : list string) : string := List.last l EmptyString.

(** [s.startswith(p)] *)
Definition startswith (s p : string) : bool := String.prefix p s.

(** [sep.join(l)] *)
Fixpoint join (sep : string) (l : list string) : string :=
  match l with
  | [] => EmptyString
  | [x] => x
  | x :: rest => x +:+ sep +:+ join sep rest
  end.

(** [str(n)] for an int. *)
Definition str_int (n : Z) : string := pretty n.

(** [pathlib.Path]: every path the program builds starts with the literal
    segment [protobuf], so it is relative and is represented by its parts.
    Parsing drops empty segments and single dots, and keeps double dots. *)
Definition Path : Type := list string.

Definition keep_segment (p : string) : bool :=
  negb (String.eqb p EmptyString) && negb (String.eqb p ".").

Definition mkPath (s : string) : Path := List.filter keep_segment (split "/" s).

(** [p.parent]; the parent of [Path('.')] is itself. *)
Definition parent (p : Path) : Path := removelast p.

Fixpoint is_prefix (other p : Path) : bool :=
  match other, p with
  | [], _ => true
  | x :: other', y :: p' => String.eqb x y && is_prefix other' p'
  | _ :: _, [] => false
  end.

(** [p.is_relative_to(other)] *)
Definition is_relative_to (p other : Path) : bool := is_prefix other p.

(** [p.relative_to(other)] *)
Definition relative_to (p other : Path) : result Path :=
  if is_prefix other p then inr (drop (length other) p)
  else inl (ValueError "is not in the subpath").

(** [str(p)] *)
Definition path_str (p : Path) : string :=
  match p with
  | [] => "."
  | _ => join "/" p
  end.

(** ** The writer monad of the renderers

    [Out A] is what a procedure taking the open file [proto] does: the text
    it wrote, and how it ended.  Text written before an exception stays
    written. *)

Definition Out (A : Type) : Type := (string * result A)%type.

Definition ret {A} (a : A) : Out A := (EmptyString, inr a).
Definition raise {A} (e : error) : Out A := (EmptyString, inl e).
Definition write (s : string) : Out unit := (s, inr tt).
Definition lift {A} (r : result A) : Out A := (EmptyString, r).

Definition bind {A B} (m : Out A) (k : A -> Out B) : Out B :=
  match m with
  | (o1, inl e) => (o1, inl e)
  | (o1, inr a) => let '(o2, r) := k a in (o1 +:+ o2, r)
  end.

Notation "x <- m ;; k" := (bind m (fun x => k))
  (at level 100, m at next level, right associativity).
Notation "m ;;; k" := (bind m (fun _ => k))
  (at level 100, right associativity).

(** [for x in l: s = body(s, x)], stopping at the first exception. *)
Definition foldM {S A} (body : S -> A -> Out S) : list A -> S -> Out S :=
  fix go (l : list A) (s : S) : Out S :=
    match l with
    | [] => ret s
    | x :: rest => s' <- body s x ;; go rest s'
    end.

(** [for x in l: body(x)] *)
Definition for_each {A} (body : A -> Out unit) (l : list A) : Out unit :=
  foldM (fun _ x => body x) l tt.

(** ** Descriptors *)

Definition TYPE_DOUBLE : Z := 1.
Definition TYPE_FLOAT : Z := 2.
Definition TYPE_INT64 : Z := 3.
Definition TYPE_UINT64 : Z := 4.
Definition TYPE_INT32 : Z := 5.
Definition TYPE_FIXED64 : Z := 6.
Definition TYPE_FIXED32 : Z := 7.
Definition TYPE_BOOL : Z := 8.
Definition TYPE_STRING : Z := 9.
Definition TYPE_GROUP : Z := 10.
Definition TYPE_MESSAGE : Z := 11.
Definition TYPE_BYTES : Z := 12.
Definition TYPE_UINT32 : Z := 13.
Definition TYPE_ENUM : Z := 14.
Definition TYPE_SFIXED32 : Z := 15.
Definition TYPE_SFIXED64 : Z := 16.
Definition TYPE_SINT32 : Z := 17.
Definition TYPE_SINT64 : Z := 18.

Definition TYPE_LABELS : gmap Z string :=
  list_to_map
    [ (TYPE_DOUBLE, "double");
      (TYPE_FLOAT, "float");
      (TYPE_INT64, "int64");
      (TYPE_UINT64, "uint64");
      (TYPE_INT32, "int32");
      (TYPE_FIXED64, "fixed64");
      (TYPE_FIXED32, "fixed32");
      (TYPE_BOOL, "bool");
      (TYPE_STRING, "string");
      (TYPE_BYTES, "byes");
      (TYPE_UINT32, "uint32");
      (TYPE_SFIXED32, "sfixed32");
      (TYPE_SFIXED64, "sfixed64");
      (TYPE_SINT32, "sint32");
      (TYPE_SINT64, "sint64") ].

(** [FieldDescriptorProto.LABEL_REPEATED] *)
Definition LABEL_REPEATED : Z := 3.

Record FieldOptions := { packed : bool }.

Record FieldDescriptorProto := {
  field_name : string;
  field_number : Z;
  field_type : Z;
  field_type_name : string;
  field_label : Z;
  field_options : FieldOptions
}.

Record EnumValueDescriptorProto := {
  value_name : string;
  value_number : Z
}.

Record EnumOptions := { allow_alias : bool }.

Record EnumDescriptorProto := {
  enum_name : string;
  enum_value : list EnumValueDescriptorProto;
  enum_options : EnumOptions
}.

Record MessageOptions := { map_entry : bool }.

Local Unset Elimination Schemes.

Inductive DescriptorProto : Type :=
  mkDescriptorProto
    (name : string)
    (field : list FieldDescriptorProto)
    (nested_type : list DescriptorProto)
    (enum_type : list EnumDescriptorProto)
    (options : MessageOptions).

Local Set Elimination Schemes.

Definition msg_name (m : DescriptorProto) : string :=
  let 'mkDescriptorProto n _ _ _ _ := m in n.
Definition msg_field (m : DescriptorProto) : list FieldDescriptorProto :=
  let 'mkDescriptorProto _ f _ _ _ := m in f.
Definition msg_nested_type (m : DescriptorProto) : list DescriptorProto :=
  let 'mkDescriptorProto _ _ n _ _ := m in n.
Definition msg_enum_type (m : DescriptorProto) : list EnumDescriptorProto :=
  let 'mkDescriptorProto _ _ _ e _ := m in e.
Definition msg_options (m : DescriptorProto) : MessageOptions :=
  let 'mkDescriptorProto _ _ _ _ o := m in o.

Record MethodDescriptorProto := {
  method_name : string;
  input_type : string;
  output_type : string;
  client_streaming : bool;
  server_streaming : bool
}.

Record ServiceDescriptorProto := {
  service_name : string;
  service_method : list MethodDescriptorProto
}.

Record FileDescriptorProto := {
  file_name : string;
  file_package : string;
  file_syntax : string;
  file_dependency : list string;
  file_service : list ServiceDescriptorProto;
  file_enum_type : list EnumDescriptorProto;
  file_message_type : list DescriptorProto
}.

(** ** Fields *)

(** A protobuf message object supports neither iteration nor subscripting:
    [for o in field.options] raises TypeError before the loop body runs. *)
Definition iter_options (o : FieldOptions) : result (list string) :=
  inl (TypeError "'FieldOptions' object is not iterable").

Definition getitem_options (o : FieldOptions) (key : string) : result string :=
  inl (TypeError "'FieldOptions' object is not subscriptable").

Definition extract_field_type_str (field : FieldDescriptorProto) : result string :=
  if (field_type field =? TYPE_ENUM) || (field_type field =? TYPE_MESSAGE) then
    inr (last_item (split "." (field_type_name field)))
  else if field_type field =? TYPE_GROUP then
    inl (NameError "GROUP")
  else
    match TYPE_LABELS !! field_type field with
    | Some type_str => inr type_str
    | None => inl (KeyError (field_type field))
    end.

Definition generate_field (field : FieldDescriptorProto)
    (map_entries : gmap string string) (level : string) : Out unit :=
  type_str <- lift (extract_field_type_str field) ;;
  let '(type_str, is_map) :=
    match map_entries !! type_str with
    | Some shortcut => (shortcut, true)
    | None => (type_str, false)
    end in
  let options : gmap string string :=
    if packed (field_options field) then <["packed" := "true"]> ∅ else ∅ in
  let repeat :=
    if (field_label field =? LABEL_REPEATED) && negb is_map
    then "repeated " else EmptyString in
  write (level +:+ repeat +:+ type_str +:+ " " +:+ field_name field
           +:+ " = " +:+ str_int (field_number field)) ;;;
  (if (0 <? size options)%nat then
     write "[" ;;;
     keys <- lift (iter_options (field_options field)) ;;
     foldM (fun sep o =>
              v <- lift (getitem_options (field_options field) o) ;;
              write (o +:+ " = " +:+ v +:+ sep) ;;;
              ret ",")
           keys EmptyString ;;;
     write "]"
   else ret tt) ;;;
  write (";" +:+ nl).

(** ** Enums *)

Definition generate_enum (enum : EnumDescriptorProto) (level : string) : Out unit :=
  write (level +:+ "enum " +:+ enum_name enum +:+ " {" +:+ nl) ;;;
  (if allow_alias (enum_options enum)
   then write (level +:+ " option allow_alias = true;" +:+ nl)
   else ret tt) ;;;
  for_each (fun v =>
              write (level +:+ "  " +:+ value_name v +:+ " = "
                       +:+ str_int (value_number v) +:+ ";" +:+ nl))
           (enum_value enum) ;;;
  write (level +:+ "}" +:+ nl).

(** ** Messages *)

(** [l[i]] on a repeated field. *)
Definition getitem {A} (l : list A) (i : nat) : result A :=
  match l !! i with
  | Some x => inr x
  | None => inl IndexError
  end.

Definition rbind {A B} (r : result A) (k : A -> result B) : result B :=
  match r with
  | inl e => inl e
  | inr a => k a
  end.

Notation "x <~ r ;; k" := (rbind r (fun x => k))
  (at level 100, r at next level, right associativity).

Definition extract_map_shortcut (m : DescriptorProto) : result string :=
  f0 <~ getitem (msg_field m) 0 ;;
  k <~ extract_field_type_str f0 ;;
  f1 <~ getitem (msg_field m) 1 ;;
  v <~ extract_field_type_str f1 ;;
  inr ("map<" +:+ k +:+ "," +:+ v +:+ ">").

Fixpoint generate_message (msg : DescriptorProto) (level : string) {struct msg}
    : Out unit :=
  match msg with
  | mkDescriptorProto name field nested_type enum_type _ =>
      write (level +:+ "message " +:+ name +:+ nl) ;;;
      write (level +:+ "{" +:+ nl) ;;;
      map_entries <-
        foldM (fun (map_entries : gmap string string) m =>
                 if map_entry (msg_options m) then
                   shortcut <- lift (extract_map_shortcut m) ;;
                   ret (<[msg_name m := shortcut]> map_entries)
                 else
                   generate_message m (level +:+ "  ") ;;;
                   ret map_entries)
              nested_type ∅ ;;
      for_each (fun e => generate_enum e (level +:+ "  ")) enum_type ;;;
      for_each (fun f => generate_field f map_entries (level +:+ "  ")) field ;;;
      write (level +:+ "}" +:+ nl)
  end.

(** ** Imports *)

(** The loop of [__generate_import]: [budget] bounds the number of tests of
    the loop condition. *)
Fixpoint climb (budget : nat) (target_file : Path) (up : string) (current : Path)
    : option (string * Path) :=
  match budget with
  | O => None
  | S budget' =>
      if negb (is_relative_to target_file current)
      then climb budget' target_file (up +:+ "../") (parent current)
      else Some (up, current)
  end.

Definition generate_import (dep : string) (current_dir : Path) : Out unit :=
  if startswith dep "google" then ret tt
  else
    let target_file := mkPath ("protobuf/" +:+ dep) in
    match climb (S (length current_dir)) target_file EmptyString current_dir with
    | None => raise LoopBudget
    | Some (up, current) =>
        rel <- lift (relative_to target_file current) ;;
        write ("import " +:+ dquote +:+ up +:+ path_str rel +:+ dquote
                 +:+ ";" +:+ nl)
    end.

(** ** Services *)

Definition generate_rpc_method (level : string) (m : MethodDescriptorProto)
    : Out unit :=
  let in_mode := if client_streaming m then "stream " else EmptyString in
  let in_type := last_item (split "." (input_type m)) in
  let ret_mode := if server_streaming m then "stream " else EmptyString in
  let ret_type := last_item (split "." (output_type m)) in
  write (level +:+ "rpc " +:+ method_name m +:+ " (" +:+ in_mode +:+ in_type
           +:+ ") returns (" +:+ ret_mode +:+ ret_type +:+ ");" +:+ nl).

Definition generate_service (s : ServiceDescriptorProto) : Out unit :=
  write ("service " +:+ service_name s +:+ " {" +:+ nl) ;;;
  for_each (generate_rpc_method "  ") (service_method s) ;;;
  write ("}" +:+ nl).

(** ** Files *)

(** The body of the [with open(target_path, 'w') as proto] block. *)
Definition file_body (file : FileDescriptorProto) (target_path : Path) : Out unit :=
  write ("syntax = " +:+ dquote +:+ file_syntax file +:+ dquote +:+ ";" +:+ nl) ;;;
  (if (0 <? String.length (file_package file))%nat
   then write ("package " +:+ file_package file +:+ ";" +:+ nl)
   else ret tt) ;;;
  for_each (fun d => generate_import d (parent target_path)) (file_dependency file) ;;;
  for_each generate_service (file_service file) ;;;
  for_each (fun x => generate_enum x EmptyString) (file_enum_type file) ;;;
  for_each (fun x => generate_message x EmptyString) (file_message_type file).

(** The world outside the process: the files under the working directory,
    by path text, and what was printed.  Directories are not modelled:
    creating them and opening a file for writing always succeed. *)
Record World := {
  files : gmap string string;
  stdout : list string
}.

Definition print (s : string) (w : World) : World :=
  {| files := files w; stdout := stdout w ++ [s] |}.

(** [open(path, 'w')], the writes, and the close at the end of the block
    (also on an exception): the file holds exactly the text written. *)
Definition write_file (path text : string) (w : World) : World :=
  {| files := <[path := text]> (files w); stdout := stdout w |}.

Definition bytes : Type := list Byte.byte.

(** The descriptor objects of the protobuf runtime: a file's descriptor
    refers to the descriptors of the files it imports. *)
Local Unset Elimination Schemes.

Inductive FileDescriptor : Type :=
  mkFileDescriptor
    (name : string)
    (serialized_pb : bytes)
    (dependencies : list FileDescriptor).

Local Set Elimination Schemes.

Definition fd_name (d : FileDescriptor) : string :=
  let 'mkFileDescriptor n _ _ := d in n.
Definition fd_serialized_pb (d : FileDescriptor) : bytes :=
  let 'mkFileDescriptor _ b _ := d in b.
Definition fd_dependencies (d : FileDescriptor) : list FileDescriptor :=
  let 'mkFileDescriptor _ _ ds := d in ds.

(** State of a walk: the [processed] set, the world, and a log of the
    descriptors handed to [__generate_file], oldest first (the log is not
    program state; it records the order of the calls). *)
Record WalkState := {
  processed : gset string;
  world : World;
  emitted : list FileDescriptor
}.

Definition Walk (A : Type) : Type := WalkState -> WalkState * result A.

Definition walk_each {A} (body : A -> Walk unit) : list A -> Walk unit :=
  fix go (l : list A) (st : WalkState) : WalkState * result unit :=
    match l with
    | [] => (st, inr tt)
    | x :: rest =>
        match body x st with
        | (st', inl e) => (st', inl e)
        | (st', inr _) => go rest st'
        end
    end.

Section Renderer.

(** [FileDescriptorProto.ParseFromString]: [None] stands for DecodeError. *)
Variable ParseFromString : bytes -> option FileDescriptorProto.

(** [str(file)], the text format of a message. *)
Variable text_format : FileDescriptorProto -> string.

Definition generate_file (data : bytes) (w : World) : World * result unit :=
  match ParseFromString data with
  | None => (w, inl DecodeError)
  | Some file =>
      let w := print (text_format file) w in
      let target_path := mkPath ("protobuf/" +:+ file_name file) in
      let '(text, r) := file_body file target_path in
      (write_file (path_str target_path) text w, r)
  end.

Fixpoint reverse_grpc_descriptor (descriptor : FileDescriptor) : Walk unit :=
  fun st =>
  match descriptor with
  | mkFileDescriptor name serialized_pb dependencies =>
      if bool_decide (name ∈ processed st) then (st, inr tt)
      else
        match walk_each reverse_grpc_descriptor dependencies st with
        | (st1, inl e) => (st1, inl e)
        | (st1, inr _) =>
            let '(w, r) := generate_file serialized_pb (world st1) in
            let log := emitted st1 ++ [descriptor] in
            match r with
            | inl e =>
                ({| processed := processed st1; world := w; emitted := log |},
                 inl e)
            | inr _ =>
                ({| processed := {[name]} ∪ processed st1; world := w;
                    emitted := log |},
                 inr tt)
            end
        end
  end.

Definition reverse_descriptor (root_descriptor : FileDescriptor) (w : World)
    : WalkState * result unit :=
  reverse_grpc_descriptor root_descriptor
    {| processed := ∅; world := w; emitted := [] |}.

End Renderer.

(** * Vocabulary of the properties *)

(** Whether a character occurs in a string. *)
Fixpoint occurs (c : ascii) (s : string) : bool :=
  match s with
  | EmptyString => false
  | String c' s' => Ascii.eqb c' c || occurs c s'
  end.

(** The spec's reading of [x.split(sep)[-1]]: the part of the name after
    its last separator, or the whole name when it has none. *)
Definition last_segment_of (sep : ascii) (s seg : string) : Prop :=
  occurs sep seg = false ∧
  (s = seg ∨ ∃ qualifier, s = qualifier +:+ String sep seg).

(** The texts of a list, one after the other. *)
Fixpoint concat_str (l : list string) : string :=
  match l with
  | [] => EmptyString
  | s :: rest => s +:+ concat_str rest
  end.

(** The keyword of each scalar kind in the .proto language, as the spec
    lists them (the reference table the code's [TYPE_LABELS] is meant to
    reproduce). *)
Definition proto_keyword (t : Z) : option string :=
  match t with
  | 1 => Some "double"
  | 2 => Some "float"
  | 3 => Some "int64"
  | 4 => Some "uint64"
  | 5 => Some "int32"
  | 6 => Some "fixed64"
  | 7 => Some "fixed32"
  | 8 => Some "bool"
  | 9 => Some "string"
  | 12 => Some "bytes"
  | 13 => Some "uint32"
  | 15 => Some "sfixed32"
  | 16 => Some "sfixed64"
  | 17 => Some "sint32"
  | 18 => Some "sint64"
  | _ => None
  end.

(** [k] segments [../] in a row. *)
Fixpoint ups (k : nat) : string :=
  match k with
  | O => EmptyString
  | S k' => "../" +:+ ups k'
  end.

(** The body of the loop over [msg.nested_type]. *)
Definition nested_body (level : string)
    (map_entries : gmap string string) (m : DescriptorProto)
    : Out (gmap string string) :=
  if map_entry (msg_options m) then
    shortcut <- lift (extract_map_shortcut m) ;;
    ret (<[msg_name m := shortcut]> map_entries)
  else
    generate_message m (level +:+ "  ") ;;;
    ret map_entries.

(** The nested types that are declared in the text: all but the map
    entries. *)
Definition declared_nested (msg : DescriptorProto) : list DescriptorProto :=
  List.filter (fun m => negb (map_entry (msg_options m))) (msg_nested_type msg).

(** Whether a message has a field of group kind, at any depth. *)
Fixpoint has_groupb (m : DescriptorProto) : bool :=
  match m with
  | mkDescriptorProto _ field nested_type _ _ =>
      existsb (fun f => field_type f =? TYPE_GROUP) field
      || existsb has_groupb nested_type
  end.

(** [entry] is a synthetic map-entry type and the field's type name refers
    to it. *)
Definition is_map_entry_for (f : FieldDescriptorProto) (entry : DescriptorProto)
    : Prop :=
  map_entry (msg_options entry) = true ∧
  msg_name entry = last_item (split "." (field_type_name f)).

(** A map entry with key type string and value type int32. *)
Definition string_int32_entry (entry : DescriptorProto) : Prop :=
  ∃ key value rest,
    msg_field entry = key :: value :: rest ∧
    field_type key = TYPE_STRING ∧ field_type value = TYPE_INT32.

(** Where the text of a file goes: [str(pathlib.Path(f"protobuf/{file.name}"))]. *)
Definition output_path (file : FileDescriptorProto) : string :=
  path_str (mkPath ("protobuf/" +:+ file_name file)).

(** The text the renderer writes for a file and how rendering ends; both
    are functions of the parsed descriptor alone. *)
Definition rendered (file : FileDescriptorProto) : Out unit :=
  file_body file (mkPath ("protobuf/" +:+ file_name file)).

(** The names met below a descriptor, itself included. *)
Fixpoint tree_names (d : FileDescriptor) : list string :=
  match d with
  | mkFileDescriptor name _ dependencies =>
      name :: List.flat_map tree_names dependencies
  end.

(** The dependency graph is acyclic: no file is, by name, among the files
    it depends on, directly or not. *)
Fixpoint acyclicb (d : FileDescriptor) : bool :=
  match d with
  | mkFileDescriptor name _ dependencies =>
      negb (bool_decide (name ∈ List.flat_map tree_names dependencies))
      && forallb acyclicb dependencies
  end.

(** The descriptors met below a descriptor, itself included. *)
Fixpoint subtrees (d : FileDescriptor) : list FileDescriptor :=
  match d with
  | mkFileDescriptor _ _ dependencies =>
      d :: List.flat_map subtrees dependencies
  end.

(** A name identifies a file: descriptors met under the root with equal
    names are the same descriptor (the data model's invariant on names). *)
Definition unique_names (root : FileDescriptor) : Prop :=
  ∀ d1 d2, d1 ∈ subtrees root → d2 ∈ subtrees root →
           fd_name d1 = fd_name d2 → d1 = d2.

(** [processed] is closed under dependencies, for the descriptors of [U]. *)
Definition closed_under_deps (U : list FileDescriptor) (st : WalkState) : Prop :=
  ∀ d, d ∈ U → fd_name d ∈ processed st →
       ∀ n, n ∈ tree_names d → n ∈ processed st.

(** What a walk adds to the state it starts from: [new] is the part of the
    log the walk appended. *)
Definition walk_post (reach roots : list string) (acyclic : bool)
    (st st' : WalkState) (r : result unit) : Prop :=
  ∃ new,
    emitted st' = emitted st ++ new ∧
    (∀ n, n ∈ fd_name <$> new → n ∈ reach ∧ n ∉ processed st) ∧
    (acyclic = true → NoDup (fd_name <$> new)) ∧
    (∀ i e dep,
       new !! i = Some e → dep ∈ fd_dependencies e →
       fd_name dep ∈ processed st ∨ fd_name dep ∈ fd_name <$> take i new) ∧
    (r = inr tt →
       processed st' = processed st ∪ list_to_set (fd_name <$> new) ∧
       ∀ n, n ∈ roots → n ∈ processed st').

(** A completed walk of [d] keeps [processed] closed under dependencies and
    processes every name under [d]. *)
Definition walk_complete_at
    (ParseFromString : bytes -> option FileDescriptorProto)
    (text_format : FileDescriptorProto -> string)
    (U : list FileDescriptor) (d : FileDescriptor) : Prop :=
  ∀ st, d ∈ U → closed_under_deps U st →
        snd (reverse_grpc_descriptor ParseFromString text_format d st) = inr tt →
        closed_under_deps U
          (fst (reverse_grpc_descriptor ParseFromString text_format d st)) ∧
        ∀ n, n ∈ tree_names d →
             n ∈ processed
                   (fst (reverse_grpc_descriptor ParseFromString text_format d st)).

(** Whether a result is a value, and whether a procedure returned. *)
Definition is_ok {A} (r : result A) : bool :=
  match r with
  | inr _ => true
  | inl _ => false
  end.

Definition succeeds {A} (m : Out A) : bool := is_ok (snd m).

(** Type codes with a display string: 1 to 18 but for the group kind. *)
Definition type_okb (t : Z) : bool :=
  (1 <=? t) && (t <=? 18) && negb (t =? TYPE_GROUP).

(** Fields that render: a type code with a display string and no packed
    option. *)
Definition field_okb (f : FieldDescriptorProto) : bool :=
  type_okb (field_type f) && negb (packed (field_options f)).

(** Map entries with a shorthand: two leading fields whose types have
    display strings. *)
Definition entry_okb (m : DescriptorProto) : bool :=
  match msg_field m with
  | key :: value :: _ =>
      type_okb (field_type key) && type_okb (field_type value)
  | _ => false
  end.

(** Messages that render: every field renders, every map entry has a
    shorthand, every other nested message renders. *)
Fixpoint renderableb (m : DescriptorProto) : bool :=
  match m with
  | mkDescriptorProto _ field nested_type _ _ =>
      forallb (fun n => if map_entry (msg_options n) then entry_okb n
                        else renderableb n) nested_type
      && forallb field_okb field
  end.

(** The exceptions rendering can end with. *)
Definition render_error (e : error) : Prop :=
  e = NameError "GROUP"
  ∨ (∃ t, e = KeyError t ∧ ¬ (1 ≤ t ≤ 18))
  ∨ e = IndexError
  ∨ e = TypeError "'FieldOptions' object is not iterable".

(** How [__generate_file] ends on the bytes of a descriptor. *)
Definition file_outcome (ParseFromString : bytes -> option FileDescriptorProto)
    (d : FileDescriptor) : result unit :=
  match ParseFromString (fd_serialized_pb d) with
  | None => inl DecodeError
  | Some file => snd (rendered file)
  end.

(** The path of the file [__generate_file] writes for a descriptor, when
    its bytes parse. *)
Definition written_path (ParseFromString : bytes -> option FileDescriptorProto)
    (d : FileDescriptor) : option string :=
  output_path <$> ParseFromString (fd_serialized_pb d).

(** What a walk did, by how it ended.  Returning, every descriptor it
    handed to [__generate_file] rendered, is recorded as processed and has
    its file in the output root.  Raising, it stopped at the descriptor
    whose rendering raised: the ones before it rendered and are recorded,
    that one is not. *)
Definition walk_outcome (ParseFromString : bytes -> option FileDescriptorProto)
    (st st' : WalkState) (r : result unit) : Prop :=
  ∃ new,
    emitted st' = emitted st ++ new ∧
    dom (files (world st)) ⊆ dom (files (world st')) ∧
    match r with
    | inr _ =>
        Forall (λ f, file_outcome ParseFromString f = inr tt) new ∧
        Forall (λ f, ∀ path, written_path ParseFromString f = Some path →
                             path ∈ dom (files (world st'))) new ∧
        processed st' = processed st ∪ list_to_set (fd_name <$> new)
    | inl e =>
        ∃ rendered_before failing,
          new = rendered_before ++ [failing] ∧
          Forall (λ f, file_outcome ParseFromString f = inr tt) rendered_before ∧
          file_outcome ParseFromString failing = inl e ∧
          processed st' = processed st ∪ list_to_set (fd_name <$> rendered_before)
    end.

(** Paths without a [..] segment. *)
Definition no_dotdot (p : Path) : bool :=
  forallb (fun seg => negb (String.eqb seg "..")) p.



(** The first field read of a map entry whose type does not resolve is of
    group kind: the key, or the value behind a key that resolves. *)
Definition entry_group (entry : DescriptorProto) : Prop :=
  (∃ key rest, msg_field entry = key :: rest ∧ field_type key = TYPE_GROUP)
  ∨ (∃ key value rest,
       msg_field entry = key :: value :: rest ∧
       type_okb (field_type key) = true ∧ field_type value = TYPE_GROUP).

(** Rendering a message at an indentation comes to a field of group kind,
    everything before that field having rendered; the third argument is
    the text written until then.  The field is one of the message's own,
    behind the nested types, the enums and the fields before it; or one of
    the two leading fields of a map-entry nested type, behind the nested
    types before it; or it is come to inside a nested message, behind the
    nested types before that one. *)
Inductive group_reached : DescriptorProto → string → string → Prop :=
  | group_reached_field name fields_before g fields_after nested enums opts
        level nested_out map_entries :
      foldM (nested_body level) nested ∅ = (nested_out, inr map_entries) →
      forallb field_okb fields_before = true →
      field_type g = TYPE_GROUP →
      group_reached
        (mkDescriptorProto name (fields_before ++ g :: fields_after)
                           nested enums opts)
        level
        (level +:+ "message " +:+ name +:+ nl +:+ level +:+ "{" +:+ nl
           +:+ nested_out
           +:+ concat_str (map (λ e, fst (generate_enum e (level +:+ "  ")))
                               enums)
           +:+ concat_str
                 (map (λ f, fst (generate_field f map_entries (level +:+ "  ")))
                      fields_before))
  | group_reached_entry name fields nested_before entry nested_after enums opts
        level out_before table :
      foldM (nested_body level) nested_before ∅ = (out_before, inr table) →
      map_entry (msg_options entry) = true →
      entry_group entry →
      group_reached
        (mkDescriptorProto name fields
                           (nested_before ++ entry :: nested_after) enums opts)
        level
        (level +:+ "message " +:+ name +:+ nl +:+ level +:+ "{" +:+ nl
           +:+ out_before)
  | group_reached_nested name fields nested_before sub nested_after enums opts
        level out_before table text_sub :
      foldM (nested_body level) nested_before ∅ = (out_before, inr table) →
      map_entry (msg_options sub) = false →
      group_reached sub (level +:+ "  ") text_sub →
      group_reached
        (mkDescriptorProto name fields
                           (nested_before ++ sub :: nested_after) enums opts)
        level
        (level +:+ "message " +:+ name +:+ nl +:+ level +:+ "{" +:+ nl
           +:+ out_before +:+ text_sub).


(** * Example data

    Single descriptors used to evaluate the renderer, then four schema files
    with a diamond of imports and a file that still uses a group.  The
    serialized descriptors are stood for by one-byte tags, which
    [example_parse] maps back to the parsed descriptors. *)

Definition scalar_field (name : string) (number type label : Z)
    : FieldDescriptorProto :=
  {| field_name := name; field_number := number; field_type := type;
     field_type_name := EmptyString; field_label := label;
     field_options := {| packed := false |} |}.

(** A field of kind bytes, [bytes data = 1;] in the schema. *)
Definition bytes_field : FieldDescriptorProto :=
  {| field_name := "data"; field_number := 1; field_type := TYPE_BYTES;
     field_type_name := EmptyString; field_label := 1;
     field_options := {| packed := false |} |}.

(** A field of kind int32 with the packed option set,
    [repeated int32 ids = 4 [packed = true];] in the schema. *)
Definition packed_field : FieldDescriptorProto :=
  {| field_name := "ids"; field_number := 4; field_type := TYPE_INT32;
     field_type_name := EmptyString; field_label := LABEL_REPEATED;
     field_options := {| packed := true |} |}.

(** The entry type of [map<string, int32> counts]. *)
Definition counts_entry : DescriptorProto :=
  mkDescriptorProto "CountsEntry"
    [ {| field_name := "key"; field_number := 1; field_type := TYPE_STRING;
         field_type_name := EmptyString; field_label := 1;
         field_options := {| packed := false |} |};
      {| field_name := "value"; field_number := 2; field_type := TYPE_INT32;
         field_type_name := EmptyString; field_label := 1;
         field_options := {| packed := false |} |} ]
    [] [] {| map_entry := true |}.

Definition counts_field : FieldDescriptorProto :=
  {| field_name := "counts"; field_number := 3; field_type := TYPE_MESSAGE;
     field_type_name := ".pkg.Stats.CountsEntry";
     field_label := LABEL_REPEATED;
     field_options := {| packed := false |} |}.

(** A message with a map field, a nested message that is declared, and a
    scalar field:
    [message Stats { message Inner {} map<string,int32> counts = 3;
                     repeated string tags = 4; }]. *)
Definition stats_message : DescriptorProto :=
  mkDescriptorProto "Stats"
    [ {| field_name := "counts"; field_number := 3; field_type := TYPE_MESSAGE;
         field_type_name := ".pkg.Stats.CountsEntry";
         field_label := LABEL_REPEATED;
         field_options := {| packed := false |} |};
      {| field_name := "tags"; field_number := 4; field_type := TYPE_STRING;
         field_type_name := EmptyString; field_label := LABEL_REPEATED;
         field_options := {| packed := false |} |} ]
    [ mkDescriptorProto "Inner" [] [] [] {| map_entry := false |};
      counts_entry ]
    [] {| map_entry := false |}.

Definition types_file : FileDescriptorProto :=
  {| file_name := "common/types.proto"; file_package := "common";
     file_syntax := "proto3"; file_dependency := [];
     file_service := [];
     file_enum_type :=
       [ {| enum_name := "Level";
            enum_value := [ {| value_name := "LOW"; value_number := 0 |};
                            {| value_name := "HIGH"; value_number := 1 |} ];
            enum_options := {| allow_alias := false |} |} ];
     file_message_type := [ stats_message ] |}.

Definition b_file : FileDescriptorProto :=
  {| file_name := "svc/b.proto"; file_package := "svc";
     file_syntax := "proto3"; file_dependency := ["common/types.proto"];
     file_service := []; file_enum_type := [];
     file_message_type :=
       [ mkDescriptorProto "In" [scalar_field "id" 1 TYPE_INT64 1] [] []
           {| map_entry := false |} ] |}.

Definition c_file : FileDescriptorProto :=
  {| file_name := "svc/c.proto"; file_package := "svc";
     file_syntax := "proto3";
     file_dependency := ["common/types.proto"; "google/protobuf/empty.proto"];
     file_service := []; file_enum_type := [];
     file_message_type :=
       [ mkDescriptorProto "Out" [scalar_field "ok" 1 TYPE_BOOL 1] [] []
           {| map_entry := false |} ] |}.

Definition api_file : FileDescriptorProto :=
  {| file_name := "svc/api.proto"; file_package := "svc";
     file_syntax := "proto3"; file_dependency := ["svc/b.proto"; "svc/c.proto"];
     file_service :=
       [ {| service_name := "Api";
            service_method :=
              [ {| method_name := "Watch"; input_type := ".svc.In";
                   output_type := ".svc.Out"; client_streaming := false;
                   server_streaming := true |} ] |} ];
     file_enum_type := []; file_message_type := [] |}.

Definition legacy_file : FileDescriptorProto :=
  {| file_name := "legacy.proto"; file_package := "old";
     file_syntax := "proto2"; file_dependency := [];
     file_service := []; file_enum_type := [];
     file_message_type :=
       [ mkDescriptorProto "Record"
           [ scalar_field "id" 1 TYPE_INT32 1;
             scalar_field "payload" 2 TYPE_GROUP 1;
             scalar_field "note" 3 TYPE_STRING 1 ]
           [] [] {| map_entry := false |} ] |}.

Definition example_parse (data : bytes) : option FileDescriptorProto :=
  match data with
  | [Byte.x01] => Some types_file
  | [Byte.x02] => Some b_file
  | [Byte.x03] => Some c_file
  | [Byte.x04] => Some api_file
  | [Byte.x05] => Some legacy_file
  | _ => None
  end.

Definition example_text (file : FileDescriptorProto) : string :=
  "name: " +:+ file_name file.

Definition types_descriptor : FileDescriptor :=
  mkFileDescriptor "common/types.proto" [Byte.x01] [].

Definition b_descriptor : FileDescriptor :=
  mkFileDescriptor "svc/b.proto" [Byte.x02] [types_descriptor].

Definition c_descriptor : FileDescriptor :=
  mkFileDescriptor "svc/c.proto" [Byte.x03] [types_descriptor].

Definition api_descriptor : FileDescriptor :=
  mkFileDescriptor "svc/api.proto" [Byte.x04] [b_descriptor; c_descriptor].

(** A clean output root, and one that differs from it outside the files. *)
Definition clean_world : World := {| files := ∅; stdout := [] |}.



(** A message with two map entries of one name: the table keeps the
    second. *)
Definition index_field : FieldDescriptorProto :=
  {| field_name := "index"; field_number := 7; field_type := TYPE_MESSAGE;
     field_type_name := ".pkg.Shadow.E"; field_label := LABEL_REPEATED;
     field_options := {| packed := false |} |}.

Definition first_entry : DescriptorProto :=
  mkDescriptorProto "E"
    [scalar_field "key" 1 TYPE_STRING 1; scalar_field "value" 2 TYPE_INT32 1]
    [] [] {| map_entry := true |}.

Definition second_entry : DescriptorProto :=
  mkDescriptorProto "E"
    [scalar_field "key" 1 TYPE_INT64 1; scalar_field "value" 2 TYPE_BOOL 1]
    [] [] {| map_entry := true |}.

Definition shadowed_message : DescriptorProto :=
  mkDescriptorProto "Shadow" [index_field] [first_entry; second_entry]
    [] {| map_entry := false |}.

(** A file whose second import does not render. *)
Definition legacy_descriptor : FileDescriptor :=
  mkFileDescriptor "legacy.proto" [Byte.x05] [].

Definition mixed_descriptor : FileDescriptor :=
  mkFileDescriptor "svc/api.proto" [Byte.x04]
    [types_descriptor; legacy_descriptor; b_descriptor].

(** The state a run starts from, over a clean output root. *)
Definition fresh_state : WalkState :=
  {| processed := ∅; world := clean_world; emitted := [] |}.

(** A message with a group field inside a nested message, behind a map
    entry and a declared nested message. *)
Definition deep_group_message : DescriptorProto :=
  mkDescriptorProto "Outer"
    [ scalar_field "after" 9 TYPE_STRING 1 ]
    [ counts_entry;
      mkDescriptorProto "Plain" [scalar_field "x" 1 TYPE_BOOL 1] [] []
        {| map_entry := false |};
      mkDescriptorProto "Inner"
        [ scalar_field "id" 1 TYPE_INT32 1;
          scalar_field "payload" 2 TYPE_GROUP 1 ]
        [] [] {| map_entry := false |} ]
    [] {| map_entry := false |}.

(** * Properties *)

(** ** Strings *)

Lemma str_app_cons c s t : String c s +:+ t = String c (s +:+ t).
Proof. reflexivity. Qed.

Lemma str_app_empty_l s : EmptyString +:+ s = s.
Proof. reflexivity. Qed.

Lemma str_app_empty_r s : s +:+ EmptyString = s.
Proof. induction s as [|c s IH]; [done|]. by rewrite str_app_cons, IH. Qed.

Lemma str_app_assoc s t u : (s +:+ t) +:+ u = s +:+ t +:+ u.
Proof. induction s as [|c s IH]; [done|]. by rewrite !str_app_cons, IH. Qed.

Create Rewrite HintDb str.
#[local] Hint Rewrite str_app_empty_l str_app_empty_r str_app_assoc : str.

Ltac str_norm := autorewrite with str; try reflexivity.

Lemma split_not_nil sep s : split sep s ≠ [].
Proof.
  destruct s as [|c s]; simpl; [done|].
  destruct (Ascii.eqb c sep); [done|]. by destruct (split sep s).
Qed.

Lemma split_cons sep s :
  match split sep s with
  | [] => False
  | [seg] => s = seg ∧ occurs sep seg = false
  | seg :: segs =>
      ∃ rest, s = seg +:+ String sep rest ∧ occurs sep seg = false ∧
              split sep rest = segs
  end.
Proof.
  induction s as [|c s IH]; simpl; [done|].
  destruct (Ascii.eqb c sep) eqn:Hc.
  - apply Ascii.eqb_eq in Hc as ->.
    pose proof (split_not_nil sep s). destruct (split sep s) eqn:E; [done|].
    by exists s.
  - destruct (split sep s) as [|seg [|seg' segs]] eqn:E; [done| |].
    + destruct IH as [-> Hocc]. simpl. by rewrite Hc, Hocc.
    + destruct IH as (rest & -> & Hocc & Hrest). exists rest.
      simpl. by rewrite Hc, Hocc.
Qed.

Lemma last_item_split sep s : last_segment_of sep s (last_item (split sep s)).
Proof.
  unfold last_item. remember (split sep s) as l eqn:Hl. symmetry in Hl.
  revert s Hl. induction l as [|seg l IH]; intros s Hl.
  { by apply split_not_nil in Hl. }
  pose proof (split_cons sep s) as Hs. rewrite Hl in Hs.
  destruct l as [|seg' segs].
  { destruct Hs as [-> Hocc]. split; [done|by left]. }
  destruct Hs as (rest & -> & _ & Hrest).
  destruct (IH rest Hrest) as [Hocc Hlast]. split; [done|]. right.
  change (List.last (seg :: seg' :: segs) EmptyString)
    with (List.last (seg' :: segs) EmptyString).
  destruct Hlast as [->|[q ->]]; [by exists seg|].
  exists (seg +:+ String sep q). by rewrite str_app_assoc.
Qed.

Lemma startswith_spec s p : startswith s p = true ↔ ∃ rest, s = p +:+ rest.
Proof.
  unfold startswith. revert s. induction p as [|c p IH]; intros s.
  - split; [intros _; by exists s|]. by destruct s.
  - destruct s as [|c' s]; simpl.
    + split; [done|]. by intros [rest ?].
    + destruct (ascii_dec c c') as [->|Hne].
      * rewrite IH. split; intros [rest Heq]; exists rest; [by rewrite Heq|].
        rewrite str_app_cons in Heq. congruence.
      * split; [done|]. intros [rest Heq]. rewrite str_app_cons in Heq. congruence.
Qed.

(** ** The writer monad *)

Lemma bind_ok_inv {A B} (m : Out A) (k : A → Out B) out b :
  bind m k = (out, inr b) →
  ∃ o1 a o2, m = (o1, inr a) ∧ k a = (o2, inr b) ∧ out = o1 +:+ o2.
Proof.
  destruct m as [o1 [e|a]]; simpl; [done|].
  destruct (k a) as [o2 r] eqn:Hk. intros [= <- ->]. by exists o1, a, o2.
Qed.

Lemma bind_err_inv {A B} (m : Out A) (k : A → Out B) out e :
  bind m k = (out, inl e) →
  m = (out, inl e) ∨ ∃ o1 a o2, m = (o1, inr a) ∧ k a = (o2, inl e).
Proof.
  destruct m as [o1 [e'|a]]; simpl; [intros [= <- <-]; by left|].
  destruct (k a) as [o2 r] eqn:Hk. intros [= <- ->]. right. by exists o1, a, o2.
Qed.

(** A loop that raises does so in the body, at some element. *)
Lemma foldM_err_inv {S A} (body : S → A → Out S) (l : list A) s out e :
  foldM body l s = (out, inl e) →
  ∃ x s', x ∈ l ∧ snd (body s' x) = inl e.
Proof.
  revert s out. induction l as [|x l IH]; intros s out; simpl; [done|].
  intros [Hx|(o1 & s1 & o2 & Hx & Hl)]%bind_err_inv.
  - exists x, s. split; [by left|]. by rewrite Hx.
  - destruct (IH _ _ Hl) as (y & s' & Hy & Hbody).
    exists y, s'. split; [by right|done].
Qed.

Lemma for_each_err_inv {A} (body : A → Out unit) (l : list A) out e :
  for_each body l = (out, inl e) → ∃ x, x ∈ l ∧ snd (body x) = inl e.
Proof.
  unfold for_each. intros (x & _ & Hx & Hbody)%foldM_err_inv. by exists x.
Qed.

(** A loop whose body cannot raise writes the bodies' texts in order. *)
Lemma for_each_total {A} (body : A → Out unit) (l : list A) :
  (∀ x, snd (body x) = inr tt) →
  for_each body l = (concat_str (map (λ x, fst (body x)) l), inr tt).
Proof.
  intros Hbody. unfold for_each. induction l as [|x l IH]; [done|].
  simpl. specialize (Hbody x). destruct (body x) as [o r]. simpl in *.
  subst r. by rewrite IH.
Qed.

Lemma for_each_ok_inv {A} (body : A → Out unit) (l : list A) out :
  for_each body l = (out, inr tt) →
  Forall (λ x, snd (body x) = inr tt) l ∧
  out = concat_str (map (λ x, fst (body x)) l).
Proof.
  unfold for_each. revert out. induction l as [|x l IH]; intros out.
  { by intros [= <-]. }
  simpl foldM. intros (o1 & [] & o2 & Hx & Hl & ->)%bind_ok_inv.
  apply IH in Hl as [Hall ->]. split.
  - constructor; [by rewrite Hx|done].
  - simpl. by rewrite Hx.
Qed.

(** ** Field types *)

Lemma TYPE_LABELS_lookup t :
  TYPE_LABELS !! t =
  if t =? TYPE_BYTES then Some "byes" else proto_keyword t.
Proof.
  destruct (decide (1 ≤ t ≤ 18)) as [Ht|Ht].
  - assert (t ∈ (Z.of_nat <$> seq 1 18)) as Hin.
    { apply list_elem_of_fmap. exists (Z.to_nat t). split; [lia|].
      apply elem_of_seq. lia. }
    revert Hin. generalize t. apply Forall_forall.
    let l := eval vm_compute in (Z.of_nat <$> seq 1 18) in
    change (Z.of_nat <$> seq 1 18) with l.
    repeat (constructor; [by vm_compute|]). constructor.
  - assert (TYPE_LABELS !! t = None) as ->.
    { apply not_elem_of_dom. unfold TYPE_LABELS.
      rewrite dom_list_to_map_L, elem_of_list_to_set. intros Hin. apply Ht.
      revert Hin. generalize t. apply Forall_forall. simpl.
      repeat constructor; by compute. }
    destruct (Z.eqb_spec t TYPE_BYTES) as [->|_]; [exfalso; apply Ht; by compute|].
    destruct t as [|p|p]; try done.
    repeat (match goal with q : positive |- _ => destruct q end;
            try done; try (exfalso; apply Ht; lia)).
Qed.

Lemma extract_field_type_str_scalar field kw :
  proto_keyword (field_type field) = Some kw →
  field_type field ≠ TYPE_BYTES →
  extract_field_type_str field = inr kw.
Proof.
  intros Hkw Hne. unfold extract_field_type_str.
  rewrite TYPE_LABELS_lookup.
  destruct (Z.eqb_spec (field_type field) TYPE_ENUM) as [E|_];
    [by rewrite E in Hkw|].
  destruct (Z.eqb_spec (field_type field) TYPE_MESSAGE) as [E|_];
    [by rewrite E in Hkw|].
  destruct (Z.eqb_spec (field_type field) TYPE_GROUP) as [E|_];
    [by rewrite E in Hkw|].
  destruct (Z.eqb_spec (field_type field) TYPE_BYTES) as [E|_]; [done|].
  simpl. by rewrite Hkw.
Qed.

Lemma extract_field_type_str_group field :
  field_type field = TYPE_GROUP →
  extract_field_type_str field = inl (NameError "GROUP").
Proof. unfold extract_field_type_str. by intros ->. Qed.

Lemma extract_field_type_str_named field :
  field_type field = TYPE_MESSAGE ∨ field_type field = TYPE_ENUM →
  extract_field_type_str field = inr (last_item (split "." (field_type_name field))).
Proof. unfold extract_field_type_str. by intros [-> | ->]. Qed.

(** A type code outside 1..18 is a failed table lookup. *)
Lemma extract_field_type_str_unknown field :
  ¬ (1 ≤ field_type field ≤ 18) →
  extract_field_type_str field = inl (KeyError (field_type field)).
Proof.
  intros Ht. unfold extract_field_type_str. rewrite TYPE_LABELS_lookup.
  unfold TYPE_ENUM, TYPE_MESSAGE, TYPE_GROUP, TYPE_BYTES.
  repeat (destruct (Z.eqb_spec (field_type field) _) as [E|_];
          [exfalso; apply Ht; rewrite E; lia|]).
  simpl. destruct (field_type field) as [|p|p]; try done.
  repeat (match goal with q : positive |- _ => destruct q end;
          try done; try (exfalso; apply Ht; lia)).
Qed.

(** The exceptions a field's type can raise. *)
Lemma extract_field_type_str_errors field e :
  extract_field_type_str field = inl e →
  e = NameError "GROUP" ∧ field_type field = TYPE_GROUP
  ∨ e = KeyError (field_type field).
Proof.
  unfold extract_field_type_str.
  destruct (_ || _); [done|].
  destruct (Z.eqb_spec (field_type field) TYPE_GROUP) as [E|_].
  - intros [= <-]. by left.
  - destruct (TYPE_LABELS !! _); [done|]. intros [= <-]. by right.
Qed.

(** ** Field lines *)

Lemma generate_field_raises field map_entries level e :
  extract_field_type_str field = inl e →
  generate_field field map_entries level = (EmptyString, inl e).
Proof. unfold generate_field. by intros ->. Qed.

Lemma generate_field_plain field map_entries level type_str :
  extract_field_type_str field = inr type_str →
  map_entries !! type_str = None →
  packed (field_options field) = false →
  generate_field field map_entries level =
    (level +:+ (if field_label field =? LABEL_REPEATED
                then "repeated " else EmptyString)
       +:+ type_str +:+ " " +:+ field_name field +:+ " = "
       +:+ str_int (field_number field) +:+ ";" +:+ nl,
     inr tt).
Proof.
  unfold generate_field. intros -> Hme ->. cbn [lift bind].
  rewrite Hme, map_size_empty. cbn.
  rewrite andb_true_r. by str_norm.
Qed.

Lemma generate_field_shortcut field map_entries level type_str shortcut :
  extract_field_type_str field = inr type_str →
  map_entries !! type_str = Some shortcut →
  packed (field_options field) = false →
  generate_field field map_entries level =
    (level +:+ shortcut +:+ " " +:+ field_name field +:+ " = "
       +:+ str_int (field_number field) +:+ ";" +:+ nl,
     inr tt).
Proof.
  unfold generate_field. intros -> Hme ->. cbn [lift bind].
  rewrite Hme, map_size_empty. cbn.
  rewrite andb_false_r. by str_norm.
Qed.

Lemma generate_field_packed field map_entries level type_str :
  extract_field_type_str field = inr type_str →
  packed (field_options field) = true →
  ∃ text,
    generate_field field map_entries level =
      (text +:+ "[", inl (TypeError "'FieldOptions' object is not iterable")).
Proof.
  unfold generate_field. intros -> ->. cbn [lift bind].
  destruct (map_entries !! type_str) as [shortcut|];
    rewrite insert_empty, map_size_singleton; cbn; str_norm;
    rewrite <- ?str_app_assoc; eauto.
Qed.

Lemma generate_field_ok_unpacked field map_entries level out :
  generate_field field map_entries level = (out, inr tt) →
  packed (field_options field) = false.
Proof.
  intros Hok. destruct (extract_field_type_str field) as [e|ty] eqn:Hty.
  { by rewrite (generate_field_raises _ _ _ _ Hty) in Hok. }
  destruct (packed (field_options field)) eqn:Hp; [|done].
  destruct (generate_field_packed _ map_entries level _ Hty Hp) as [text Heq].
  by rewrite Heq in Hok.
Qed.

(** Claim C1, at the kind the table gets wrong: the keyword of type code 12
    is bytes, but the table entry of [TYPE_BYTES] is spelt byes, so a bytes
    field renders as the line [byes data = 1;]. *)
Theorem bytes_keyword_misspelt :
  proto_keyword (field_type bytes_field) = Some "bytes" ∧
  extract_field_type_str bytes_field = inr "byes" ∧
  generate_field bytes_field ∅ EmptyString = ("byes data = 1;" +:+ nl, inr tt).
Proof. by vm_compute. Qed.

(** Every other scalar kind renders with its exact keyword. *)
Lemma scalar_keyword_rendered field map_entries level kw :
  proto_keyword (field_type field) = Some kw →
  field_type field ≠ TYPE_BYTES →
  map_entries !! kw = None →
  packed (field_options field) = false →
  generate_field field map_entries level =
    (level +:+ (if field_label field =? LABEL_REPEATED
                then "repeated " else EmptyString)
       +:+ kw +:+ " " +:+ field_name field +:+ " = "
       +:+ str_int (field_number field) +:+ ";" +:+ nl,
     inr tt).
Proof.
  intros Hkw Hne. apply generate_field_plain.
  by apply extract_field_type_str_scalar.
Qed.

(** Claim C2, at a packed field: the option loop iterates over the options
    message instead of the collected [options] dict, so rendering stops
    with TypeError right after the opening bracket; the text
    [packed = true] and the semicolon are never written. *)
Theorem packed_option_raises :
  generate_field packed_field ∅ "  " =
    ("  repeated int32 ids = 4[",
     inl (TypeError "'FieldOptions' object is not iterable")).
Proof. by vm_compute. Qed.

(** ** Map shortcuts *)

Lemma extract_field_type_str_not_IndexError field :
  extract_field_type_str field ≠ inl IndexError.
Proof.
  intros H. by apply extract_field_type_str_errors in H as [[? _]|?].
Qed.

(** Claim C10: for a map-entry type with at least two fields, both index
    accesses of [__extract_map_shortcut] succeed, only the first two fields
    are read, and the shorthand is [map<K,V>] with K and V the type strings
    of field 0 and field 1 (an exception raised by either type string is
    passed on). *)
Theorem extract_map_shortcut_two_fields (m : DescriptorProto) :
  (2 ≤ length (msg_field m))%nat →
  ∃ key value,
    getitem (msg_field m) 0 = inr key ∧
    getitem (msg_field m) 1 = inr value ∧
    extract_map_shortcut m =
      (k <~ extract_field_type_str key ;;
       v <~ extract_field_type_str value ;;
       inr ("map<" +:+ k +:+ "," +:+ v +:+ ">")) ∧
    extract_map_shortcut m ≠ inl IndexError ∧
    (∀ m', take 2 (msg_field m') = take 2 (msg_field m) →
           extract_map_shortcut m' = extract_map_shortcut m).
Proof.
  intros Hlen. unfold extract_map_shortcut.
  destruct (msg_field m) as [|key [|value rest]] eqn:Hm; simpl in Hlen; try lia.
  exists key, value. split; [done|]. split; [done|]. split; [done|]. split.
  - cbn. pose proof (extract_field_type_str_not_IndexError key).
    pose proof (extract_field_type_str_not_IndexError value).
    destruct (extract_field_type_str key); cbn; [congruence|].
    destruct (extract_field_type_str value); cbn; congruence.
  - intros m' Htake. destruct (msg_field m') as [|key' [|value' rest']];
      simplify_eq/=. done.
Qed.

Lemma extract_map_shortcut_two_fields_witness :
  ∃ key value,
    getitem (msg_field counts_entry) 0 = inr key ∧
    getitem (msg_field counts_entry) 1 = inr value ∧
    extract_map_shortcut counts_entry =
      (k <~ extract_field_type_str key ;;
       v <~ extract_field_type_str value ;;
       inr ("map<" +:+ k +:+ "," +:+ v +:+ ">")) ∧
    extract_map_shortcut counts_entry ≠ inl IndexError ∧
    (∀ m', take 2 (msg_field m') = take 2 (msg_field counts_entry) →
           extract_map_shortcut m' = extract_map_shortcut counts_entry).
Proof. apply (extract_map_shortcut_two_fields counts_entry). simpl. lia. Defined.

Example counts_entry_shortcut :
  extract_map_shortcut counts_entry = inr "map<string,int32>".
Proof. by vm_compute. Qed.

(** ** RPC methods *)

(** Claim C7: the request side carries the stream keyword exactly when
    [client_streaming] is set and the response side exactly when
    [server_streaming] is set, independently, and each type is shown by the
    last dot-separated segment of its qualified name. *)
Theorem rpc_method_streaming (level : string) (m : MethodDescriptorProto) :
  ∃ in_type out_type,
    last_segment_of "." (input_type m) in_type ∧
    last_segment_of "." (output_type m) out_type ∧
    generate_rpc_method level m =
      (level +:+ "rpc " +:+ method_name m
         +:+ " (" +:+ (if client_streaming m then "stream " else EmptyString)
         +:+ in_type
         +:+ ") returns ("
         +:+ (if server_streaming m then "stream " else EmptyString)
         +:+ out_type +:+ ");" +:+ nl,
       inr tt).
Proof.
  exists (last_item (split "." (input_type m))),
         (last_item (split "." (output_type m))).
  split; [apply last_item_split|]. split; [apply last_item_split|]. done.
Qed.

Example rpc_both_streaming :
  generate_rpc_method EmptyString
    {| method_name := "M"; input_type := ".pkg.In"; output_type := ".pkg.Out";
       client_streaming := true; server_streaming := true |}
  = ("rpc M (stream In) returns (stream Out);" +:+ nl, inr tt).
Proof. by vm_compute. Qed.

Example rpc_no_streaming :
  generate_rpc_method EmptyString
    {| method_name := "M"; input_type := ".pkg.In"; output_type := ".pkg.Out";
       client_streaming := false; server_streaming := false |}
  = ("rpc M (In) returns (Out);" +:+ nl, inr tt).
Proof. by vm_compute. Qed.

(** ** Import paths *)

Lemma is_prefix_nil p : is_prefix [] p = true.
Proof. by destruct p. Qed.

Lemma is_prefix_spec other p :
  is_prefix other p = true ↔ ∃ rest, p = other ++ rest.
Proof.
  revert p. induction other as [|x other IH]; intros p; simpl.
  { split; [by exists p|done]. }
  destruct p as [|y p]; [split; [done|by intros [? ?]]|].
  rewrite andb_true_iff, String.eqb_eq, IH.
  split; [intros [-> [rest ->]]; by exists rest|].
  intros [rest [= -> ->]]. split; [done|by exists rest].
Qed.

Lemma parent_length (p : Path) : p ≠ [] → (length (parent p) < length p)%nat.
Proof.
  unfold parent. induction p as [|x [|y p] IH]; intros Hne; simpl in *;
    [done|lia|]. specialize (IH ltac:(done)). lia.
Qed.

Lemma climb_spec budget target_file up current :
  (length current < budget)%nat →
  ∃ k,
    (k ≤ length current)%nat ∧
    (∀ j, (j < k)%nat →
          is_relative_to target_file (Nat.iter j parent current) = false) ∧
    is_relative_to target_file (Nat.iter k parent current) = true ∧
    climb budget target_file up current
      = Some (up +:+ ups k, Nat.iter k parent current).
Proof.
  revert up current. induction budget as [|budget IH]; intros up current Hlen;
    [lia|]. simpl climb.
  destruct (is_relative_to target_file current) eqn:Hrel; simpl.
  - exists O. simpl. rewrite str_app_empty_r. repeat split; [lia|intros; lia|done].
  - assert (current ≠ []) as Hne.
    { intros ->. unfold is_relative_to in Hrel. by rewrite is_prefix_nil in Hrel. }
    pose proof (parent_length current Hne) as Hlt.
    destruct (IH (up +:+ "../") (parent current)) as (k & Hk & Hmin & Hk_rel & Heq);
      [lia|].
    exists (S k). rewrite Nat.iter_succ_r. repeat split; [lia| |done|].
    + intros [|j] Hj; [done|]. rewrite Nat.iter_succ_r. apply Hmin. lia.
    + rewrite Heq. by rewrite str_app_assoc.
Qed.

Lemma generate_import_spec dep current_dir :
  startswith dep "google" = false →
  ∃ steps,
    (∀ j, (j < steps)%nat →
       is_relative_to (mkPath ("protobuf/" +:+ dep))
                      (Nat.iter j parent current_dir) = false) ∧
    is_relative_to (mkPath ("protobuf/" +:+ dep))
                   (Nat.iter steps parent current_dir) = true ∧
    generate_import dep current_dir =
      ("import " +:+ dquote +:+ ups steps
         +:+ path_str (drop (length (Nat.iter steps parent current_dir))
                            (mkPath ("protobuf/" +:+ dep)))
         +:+ dquote +:+ ";" +:+ nl,
       inr tt).
Proof.
  intros Hgoogle. unfold generate_import. rewrite Hgoogle.
  destruct (climb_spec (S (length current_dir)) (mkPath ("protobuf/" +:+ dep))
              EmptyString current_dir) as (k & _ & Hmin & Hrel & ->); [lia|].
  exists k. split; [done|]. split; [done|].
  unfold relative_to. unfold is_relative_to in Hrel. rewrite Hrel.
  cbn. by str_norm.
Qed.

(** Claim C6: for a dependency outside the well-known namespace the loop
    climbs from the importing file's directory one parent at a time, one
    [../] per step, and stops at the first directory of which the
    dependency's path under [protobuf] is a descendant; the import line
    holds the [../] segments followed by the rest of that path. *)
Theorem relative_import_path (dep : string) (current_dir : Path) :
  startswith dep "google" = false →
  let target_file := mkPath ("protobuf/" +:+ dep) in
  ∃ steps,
    let ancestor := Nat.iter steps parent current_dir in
    (∀ j, (j < steps)%nat →
          is_relative_to target_file (Nat.iter j parent current_dir) = false) ∧
    (∃ rest, target_file = ancestor ++ rest ∧
       generate_import dep current_dir =
         ("import " +:+ dquote +:+ ups steps +:+ path_str rest
            +:+ dquote +:+ ";" +:+ nl,
          inr tt)).
Proof.
  intros Hgoogle target_file. subst target_file.
  destruct (generate_import_spec dep current_dir Hgoogle)
    as (steps & Hmin & Hrel & Heq).
  exists steps. split; [done|].
  apply is_prefix_spec in Hrel as [rest Hrest]. exists rest.
  split; [done|]. rewrite Heq, Hrest. by rewrite drop_app_length.
Qed.

(** The file [protobuf/a/b/x.proto] importing [c/y.proto]. *)
Lemma relative_import_path_witness :
  generate_import "c/y.proto" (parent (mkPath "protobuf/a/b/x.proto")) =
    ("import " +:+ dquote +:+ "../../c/y.proto" +:+ dquote +:+ ";" +:+ nl,
     inr tt).
Proof.
  destruct (relative_import_path "c/y.proto"
              (parent (mkPath "protobuf/a/b/x.proto")) eq_refl)
    as (steps & Hmin & rest & Hrest & Heq).
  rewrite Heq. clear Heq.
  destruct steps as [|[|[|steps]]].
  - by vm_compute in Hrest.
  - by vm_compute in Hrest.
  - vm_compute in Hrest. injection Hrest as <-. reflexivity.
  - specialize (Hmin 2%nat ltac:(lia)). by vm_compute in Hmin.
Defined.

(** Claim C9: the skip is the prefix test [dep.startswith("google")] on the
    whole dependency name.  A name that begins with google, whatever
    follows, yields no import line; every other name yields one. *)
Theorem well_known_skip_is_prefix_test :
  (∀ rest current_dir,
     generate_import ("google" +:+ rest) current_dir = (EmptyString, inr tt)) ∧
  (∀ dep current_dir,
     (¬ ∃ rest, dep = "google" +:+ rest) →
     ∃ path,
       generate_import dep current_dir =
         ("import " +:+ dquote +:+ path +:+ dquote +:+ ";" +:+ nl, inr tt)) ∧
  generate_import "googleapis/x.proto" (parent (mkPath "protobuf/svc/api.proto"))
    = (EmptyString, inr tt).
Proof.
  split; [|split].
  - intros rest current_dir. unfold generate_import.
    assert (startswith ("google" +:+ rest) "google" = true) as ->; [|done].
    apply startswith_spec. by exists rest.
  - intros dep current_dir Hnot.
    destruct (startswith dep "google") eqn:Hs.
    { by apply startswith_spec in Hs. }
    destruct (generate_import_spec dep current_dir Hs) as (k & _ & _ & ->).
    exists (ups k +:+ path_str
              (drop (length (Nat.iter k parent current_dir))
                    (mkPath ("protobuf/" +:+ dep)))).
    by str_norm.
  - by vm_compute.
Qed.

(** ** Messages *)

Lemma generate_message_eq msg level :
  generate_message msg level =
    (write (level +:+ "message " +:+ msg_name msg +:+ nl) ;;;
     write (level +:+ "{" +:+ nl) ;;;
     map_entries <- foldM (nested_body level) (msg_nested_type msg) ∅ ;;
     for_each (fun e => generate_enum e (level +:+ "  ")) (msg_enum_type msg) ;;;
     for_each (fun f => generate_field f map_entries (level +:+ "  "))
              (msg_field msg) ;;;
     write (level +:+ "}" +:+ nl)).
Proof. by destruct msg. Qed.

Lemma generate_enum_total enum level : snd (generate_enum enum level) = inr tt.
Proof.
  unfold generate_enum.
  rewrite (for_each_total _ (enum_value enum)) by done.
  by destruct (allow_alias (enum_options enum)).
Qed.

Lemma nested_loop_text level nested map_entries0 out map_entries :
  foldM (nested_body level) nested map_entries0 = (out, inr map_entries) →
  out = concat_str
          (map (λ m, fst (generate_message m (level +:+ "  ")))
               (List.filter (fun m => negb (map_entry (msg_options m))) nested)).
Proof.
  revert map_entries0 out. induction nested as [|m nested IH];
    intros map_entries0 out; simpl foldM.
  { by intros [= <- _]. }
  intros (o1 & me1 & o2 & Hm & Hrest & ->)%bind_ok_inv.
  apply IH in Hrest as ->. unfold nested_body in Hm. simpl.
  destruct (map_entry (msg_options m)); simpl.
  - apply bind_ok_inv in Hm as (? & s & ? & Hs & [= <- _] & ->).
    unfold lift in Hs. by injection Hs as <- _.
  - apply bind_ok_inv in Hm as (om & [] & ? & Hs & [= <- _] & ->).
    rewrite Hs. by str_norm.
Qed.

Lemma nested_loop_table level nested map_entries0 out map_entries n s :
  foldM (nested_body level) nested map_entries0 = (out, inr map_entries) →
  (∀ e, e ∈ nested → map_entry (msg_options e) = true → msg_name e = n →
        extract_map_shortcut e = inr s) →
  map_entries0 !! n = Some s
  ∨ (∃ e, e ∈ nested ∧ map_entry (msg_options e) = true ∧ msg_name e = n) →
  map_entries !! n = Some s.
Proof.
  revert map_entries0 out. induction nested as [|m nested IH];
    intros map_entries0 out; simpl foldM.
  { intros [= _ <-] _ [?|(e & []%elem_of_nil & _)]. done. }
  intros (o1 & me1 & o2 & Hm & Hrest & ->)%bind_ok_inv Hall Hsome.
  eapply IH; [exact Hrest|intros e He; apply Hall; by right|].
  unfold nested_body in Hm.
  destruct (map_entry (msg_options m)) eqn:Hmap.
  - apply bind_ok_inv in Hm as (? & s' & ? & Hs & [= _ <-] & _).
    unfold lift in Hs. injection Hs as _ Hs.
    destruct (decide (msg_name m = n)) as [Hn|Hn].
    + left. rewrite (Hall m) in Hs by (done || by left).
      injection Hs as <-. rewrite Hn. apply lookup_insert_eq.
    + destruct Hsome as [H0|(e & [->|He]%elem_of_cons & Hmap' & Hname)].
      * left. by rewrite lookup_insert_ne.
      * done.
      * right. by exists e.
  - apply bind_ok_inv in Hm as (? & [] & ? & _ & [= _ <-] & _).
    destruct Hsome as [H0|(e & [->|He]%elem_of_cons & Hmap' & Hname)].
    + by left.
    + congruence.
    + right. by exists e.
Qed.

Lemma generate_message_ok_inv msg level out :
  generate_message msg level = (out, inr tt) →
  ∃ nested_out map_entries,
    foldM (nested_body level) (msg_nested_type msg) ∅
      = (nested_out, inr map_entries) ∧
    Forall (λ f, snd (generate_field f map_entries (level +:+ "  ")) = inr tt)
           (msg_field msg) ∧
    out = level +:+ "message " +:+ msg_name msg +:+ nl
            +:+ level +:+ "{" +:+ nl
            +:+ nested_out
            +:+ concat_str (map (λ e, fst (generate_enum e (level +:+ "  ")))
                                (msg_enum_type msg))
            +:+ concat_str
                  (map (λ f, fst (generate_field f map_entries (level +:+ "  ")))
                       (msg_field msg))
            +:+ level +:+ "}" +:+ nl.
Proof.
  rewrite generate_message_eq.
  intros (? & [] & o1 & [= <-] & H1 & ->)%bind_ok_inv.
  apply bind_ok_inv in H1 as (? & [] & o2 & [= <-] & H2 & ->).
  apply bind_ok_inv in H2 as (nested_out & map_entries & o3 & Hn & H3 & ->).
  apply bind_ok_inv in H3 as (oe & [] & o4 & He & H4 & ->).
  apply bind_ok_inv in H4 as (ofl & [] & o5 & Hf & [= <-] & ->).
  apply for_each_ok_inv in He as [_ ->]. apply for_each_ok_inv in Hf as [Hall ->].
  exists nested_out, map_entries. split; [done|]. split; [done|]. by str_norm.
Qed.

Lemma has_groupb_eq m :
  has_groupb m =
    existsb (fun f => field_type f =? TYPE_GROUP) (msg_field m)
    || existsb has_groupb (msg_nested_type m).
Proof. by destruct m. Qed.

Lemma DescriptorProto_ind (P : DescriptorProto → Prop) :
  (∀ name field nested_type enum_type options,
     Forall P nested_type →
     P (mkDescriptorProto name field nested_type enum_type options)) →
  ∀ m, P m.
Proof.
  intros Hnode. fix IH 1. intros [name field nested enums opts]. apply Hnode.
  induction nested as [|m nested IHnested]; constructor; [apply IH|apply IHnested].
Qed.

Lemma generate_field_group_inv field map_entries level :
  snd (generate_field field map_entries level) = inl (NameError "GROUP") →
  field_type field = TYPE_GROUP.
Proof.
  destruct (extract_field_type_str field) as [e|ty] eqn:Hty.
  - rewrite (generate_field_raises _ _ _ _ Hty). simpl. intros [= ->].
    by apply extract_field_type_str_errors in Hty as [[_ ?]|?].
  - destruct (packed (field_options field)) eqn:Hp.
    + destruct (generate_field_packed _ map_entries level _ Hty Hp) as [? ->].
      done.
    + destruct (map_entries !! ty) as [shortcut|] eqn:Hme.
      * by rewrite (generate_field_shortcut _ _ _ _ _ Hty Hme Hp).
      * by rewrite (generate_field_plain _ _ _ _ Hty Hme Hp).
Qed.

Lemma extract_map_shortcut_group_inv m :
  extract_map_shortcut m = inl (NameError "GROUP") →
  existsb (fun f => field_type f =? TYPE_GROUP) (msg_field m) = true.
Proof.
  unfold extract_map_shortcut.
  destruct (msg_field m) as [|key [|value rest]]; cbn; [done| |].
  - destruct (extract_field_type_str key) as [e|k] eqn:Hk; cbn; [|done].
    intros [= ->]. apply extract_field_type_str_errors in Hk as [[_ ->]|?]; done.
  - destruct (extract_field_type_str key) as [e|k] eqn:Hk; cbn.
    { intros [= ->].
      apply extract_field_type_str_errors in Hk as [[_ ->]|?]; done. }
    destruct (extract_field_type_str value) as [e|v] eqn:Hv; cbn; [|done].
    intros [= ->].
    apply extract_field_type_str_errors in Hv as [[_ ->]|?]; [|done].
    apply orb_true_r.
Qed.

(** NameError GROUP comes from a field of group kind and from nowhere
    else. *)
Lemma generate_message_group_inv m level out :
  generate_message m level = (out, inl (NameError "GROUP")) →
  has_groupb m = true.
Proof.
  revert level out.
  induction m as [name field nested enums opts IH] using DescriptorProto_ind.
  intros level out. rewrite generate_message_eq, has_groupb_eq.
  cbn [msg_name msg_field msg_nested_type msg_enum_type].
  intros [?|(? & [] & ? & _ & H1)]%bind_err_inv; [done|].
  apply bind_err_inv in H1 as [?|(? & [] & ? & _ & H2)]; [done|].
  apply bind_err_inv in H2 as [Hn|(? & map_entries & ? & _ & H3)].
  { apply foldM_err_inv in Hn as (sub & table & Hsub & Hbody).
    apply orb_true_iff. right. apply existsb_exists. exists sub.
    split; [by apply list_elem_of_In|].
    unfold nested_body in Hbody. destruct (map_entry (msg_options sub)).
    - destruct (extract_map_shortcut sub) as [err|sc] eqn:Hsc; [|done].
      injection Hbody as ->. rewrite has_groupb_eq.
      by rewrite (extract_map_shortcut_group_inv _ Hsc).
    - rewrite Forall_forall in IH.
      destruct (generate_message sub (level +:+ "  ")) as [o [err|[]]] eqn:Hgen;
        [|done].
      injection Hbody as ->. by eapply IH. }
  apply bind_err_inv in H3 as [He|(? & [] & ? & _ & H4)].
  { apply for_each_err_inv in He as (en & _ & He).
    by rewrite generate_enum_total in He. }
  apply bind_err_inv in H4 as [Hf|(? & [] & ? & _ & ?)]; [|done].
  apply for_each_err_inv in Hf as (fld & Hin & Hf).
  apply orb_true_iff. left. apply existsb_exists. exists fld.
  split; [by apply list_elem_of_In|].
  apply generate_field_group_inv in Hf. by rewrite Hf.
Qed.

Lemma concat_str_app l1 l2 :
  concat_str (l1 ++ l2) = concat_str l1 +:+ concat_str l2.
Proof. induction l1 as [|s l1 IH]; simpl; [done|]. by rewrite IH, str_app_assoc. Qed.

Lemma string_int32_entry_shortcut entry :
  string_int32_entry entry →
  extract_map_shortcut entry = inr "map<string,int32>".
Proof.
  intros (key & value & rest & Hf & Hk & Hv). unfold extract_map_shortcut.
  rewrite Hf. cbn.
  rewrite (extract_field_type_str_scalar key "string"),
          (extract_field_type_str_scalar value "int32");
    by rewrite ?Hk, ?Hv.
Qed.

(** Claim C4: when a message that renders has a map-entry nested type with
    key type string and value type int32, and a field named counts whose
    type name refers to it, the field is rendered as the one line
    [map<string,int32> counts = N;] at the fields' indent, without the
    repeated keyword, and the nested declarations in the text are those of
    the nested types that are not map entries. *)
Theorem map_field_collapsed (msg : DescriptorProto) (level out : string)
    (f : FieldDescriptorProto) :
  generate_message msg level = (out, inr tt) →
  f ∈ msg_field msg →
  field_name f = "counts" →
  field_type f = TYPE_MESSAGE →
  (∃ entry, entry ∈ msg_nested_type msg ∧ is_map_entry_for f entry) →
  (∀ entry, entry ∈ msg_nested_type msg → is_map_entry_for f entry →
            string_int32_entry entry) →
  let line := level +:+ "  map<string,int32> counts = "
                +:+ str_int (field_number f) +:+ ";" +:+ nl in
  ∃ map_entries fields_before fields_after,
    msg_field msg = fields_before ++ f :: fields_after ∧
    generate_field f map_entries (level +:+ "  ") = (line, inr tt) ∧
    out = level +:+ "message " +:+ msg_name msg +:+ nl
            +:+ level +:+ "{" +:+ nl
            +:+ concat_str
                  (map (λ m, fst (generate_message m (level +:+ "  ")))
                       (declared_nested msg))
            +:+ concat_str
                  (map (λ e, fst (generate_enum e (level +:+ "  ")))
                       (msg_enum_type msg))
            +:+ concat_str
                  (map (λ x, fst (generate_field x map_entries (level +:+ "  ")))
                       fields_before)
            +:+ line
            +:+ concat_str
                  (map (λ x, fst (generate_field x map_entries (level +:+ "  ")))
                       fields_after)
            +:+ level +:+ "}" +:+ nl.
Proof.
  intros Hok Hin Hname Htype Hentry Hkv line.
  apply generate_message_ok_inv in Hok
    as (nested_out & map_entries & Hnested & Hfields & ->).
  pose proof (nested_loop_text _ _ _ _ _ Hnested) as ->.
  assert (map_entries !! last_item (split "." (field_type_name f))
          = Some "map<string,int32>") as Hlookup.
  { eapply nested_loop_table; [exact Hnested| |].
    - intros e He Hmap Hn. apply string_int32_entry_shortcut, Hkv; by try split.
    - right. destruct Hentry as (e & He & Hmap & Hn). by exists e. }
  assert (generate_field f map_entries (level +:+ "  ") = (line, inr tt)) as Hline.
  { rewrite Forall_forall in Hfields. specialize (Hfields f Hin).
    destruct (generate_field f map_entries (level +:+ "  ")) as [o r] eqn:Hf.
    simpl in Hfields. subst r.
    pose proof (generate_field_ok_unpacked _ _ _ _ Hf) as Hpacked.
    rewrite (generate_field_shortcut f map_entries _
               (last_item (split "." (field_type_name f))) "map<string,int32>")
      in Hf; [| by apply extract_field_type_str_named; left | done | done].
    rewrite <- Hf, Hname. unfold line. by str_norm. }
  apply list_elem_of_split in Hin as (fields_before & fields_after & Hsplit).
  exists map_entries, fields_before, fields_after.
  split; [done|]. split; [done|].
  rewrite Hsplit, map_app, concat_str_app. simpl. rewrite Hline. simpl.
  unfold declared_nested. by str_norm.
Qed.

Example stats_message_text :
  generate_message stats_message EmptyString =
    ("message Stats" +:+ nl +:+
     "{" +:+ nl +:+
     "  message Inner" +:+ nl +:+
     "  {" +:+ nl +:+
     "  }" +:+ nl +:+
     "  map<string,int32> counts = 3;" +:+ nl +:+
     "  repeated string tags = 4;" +:+ nl +:+
     "}" +:+ nl,
     inr tt).
Proof. by vm_compute. Qed.

Lemma map_field_collapsed_witness :
  ∃ map_entries fields_before fields_after,
    msg_field stats_message = fields_before ++ counts_field :: fields_after ∧
    generate_field counts_field map_entries "  "
      = ("  map<string,int32> counts = 3;" +:+ nl, inr tt) ∧
    fst (generate_message stats_message EmptyString) =
      "message Stats" +:+ nl +:+ "{" +:+ nl
        +:+ concat_str (map (λ m, fst (generate_message m "  "))
                            (declared_nested stats_message))
        +:+ concat_str (map (λ e, fst (generate_enum e "  "))
                            (msg_enum_type stats_message))
        +:+ concat_str (map (λ x, fst (generate_field x map_entries "  "))
                            fields_before)
        +:+ ("  map<string,int32> counts = 3;" +:+ nl)
        +:+ concat_str (map (λ x, fst (generate_field x map_entries "  "))
                            fields_after)
        +:+ "}" +:+ nl.
Proof.
  apply (map_field_collapsed stats_message EmptyString
           (fst (generate_message stats_message EmptyString)) counts_field).
  - by vm_compute.
  - apply list_elem_of_here.
  - reflexivity.
  - reflexivity.
  - exists counts_entry. split; [|split; reflexivity].
    apply list_elem_of_further, list_elem_of_here.
  - intros entry Hin [Hmap _].
    apply elem_of_cons in Hin as [->|Hin]; [by vm_compute in Hmap|].
    apply list_elem_of_singleton in Hin as ->.
    unfold string_int32_entry, counts_entry. simpl. by eexists _, _, _.
Defined.

(** ** Files *)


Lemma generate_import_total dep current_dir :
  snd (generate_import dep current_dir) = inr tt.
Proof.
  destruct (startswith dep "google") eqn:Hs.
  - unfold generate_import. by rewrite Hs.
  - by destruct (generate_import_spec dep current_dir Hs) as (k & _ & _ & ->).
Qed.

Lemma generate_service_total s : snd (generate_service s) = inr tt.
Proof.
  unfold generate_service.
  by rewrite (for_each_total _ (service_method s)).
Qed.

Lemma rendered_group_inv file text :
  rendered file = (text, inl (NameError "GROUP")) →
  ∃ msg, msg ∈ file_message_type file ∧ has_groupb msg = true.
Proof.
  unfold rendered, file_body.
  intros [?|(? & [] & ? & _ & H1)]%bind_err_inv; [done|].
  apply bind_err_inv in H1 as [?|(? & [] & ? & _ & H2)].
  { by destruct (0 <? _)%nat. }
  apply bind_err_inv in H2 as [Hi|(? & [] & ? & _ & H3)].
  { apply for_each_err_inv in Hi as (dep & _ & Hd).
    by rewrite generate_import_total in Hd. }
  apply bind_err_inv in H3 as [Hs|(? & [] & ? & _ & H4)].
  { apply for_each_err_inv in Hs as (sv & _ & Hsv).
    by rewrite generate_service_total in Hsv. }
  apply bind_err_inv in H4 as [He|(? & [] & ? & _ & H5)].
  { apply for_each_err_inv in He as (en & _ & He).
    by rewrite generate_enum_total in He. }
  apply for_each_err_inv in H5 as (msg & Hin & Hmsg). exists msg.
  split; [done|].
  destruct (generate_message msg EmptyString) as [o r] eqn:Hgen.
  simpl in Hmsg. subst r. by eapply generate_message_group_inv.
Qed.

Section FileProperties.

Variable ParseFromString : bytes -> option FileDescriptorProto.
Variable text_format : FileDescriptorProto -> string.

Local Abbreviation gen_file := (generate_file ParseFromString text_format).

Lemma generate_file_parsed data file w :
  ParseFromString data = Some file →
  gen_file data w =
    (write_file (output_path file) (fst (rendered file))
                (print (text_format file) w),
     snd (rendered file)).
Proof.
  intros Hparse. unfold generate_file, rendered.
  rewrite Hparse. by destruct (file_body _ _).
Qed.

Lemma generate_file_malformed data w :
  ParseFromString data = None →
  gen_file data w = (w, inl DecodeError).
Proof. intros Hparse. unfold generate_file. by rewrite Hparse. Qed.


End FileProperties.

(** ** The descriptor walk *)

Lemma FileDescriptor_ind (P : FileDescriptor → Prop) :
  (∀ name serialized_pb dependencies,
     Forall P dependencies →
     P (mkFileDescriptor name serialized_pb dependencies)) →
  ∀ d, P d.
Proof.
  intros Hnode. fix IH 1. intros [name pb deps]. apply Hnode.
  induction deps as [|d deps IHdeps]; constructor; [apply IH|apply IHdeps].
Qed.

Lemma tree_names_eq d :
  tree_names d = fd_name d :: List.flat_map tree_names (fd_dependencies d).
Proof. by destruct d. Qed.

Lemma acyclicb_eq d :
  acyclicb d =
    negb (bool_decide (fd_name d ∈ List.flat_map tree_names (fd_dependencies d)))
    && forallb acyclicb (fd_dependencies d).
Proof. by destruct d. Qed.

Lemma elem_of_flat_map_tree_names n deps :
  n ∈ List.flat_map tree_names deps ↔ ∃ d, d ∈ deps ∧ n ∈ tree_names d.
Proof.
  rewrite list_elem_of_In, in_flat_map. by setoid_rewrite list_elem_of_In.
Qed.

Lemma subtrees_eq d :
  subtrees d = d :: List.flat_map subtrees (fd_dependencies d).
Proof. by destruct d. Qed.

Lemma elem_of_flat_map_subtrees x deps :
  x ∈ List.flat_map subtrees deps ↔ ∃ d, d ∈ deps ∧ x ∈ subtrees d.
Proof.
  rewrite list_elem_of_In, in_flat_map. by setoid_rewrite list_elem_of_In.
Qed.

Lemma subtrees_refl d : d ∈ subtrees d.
Proof. rewrite subtrees_eq. by left. Qed.

Lemma subtrees_trans d1 d2 d3 :
  d1 ∈ subtrees d2 → d2 ∈ subtrees d3 → d1 ∈ subtrees d3.
Proof.
  revert d2. induction d3 as [name pb deps IH] using FileDescriptor_ind.
  intros d2 H12. rewrite (subtrees_eq (mkFileDescriptor _ _ _)). simpl.
  intros [->|H23]%elem_of_cons.
  { by rewrite subtrees_eq in H12. }
  right. apply elem_of_flat_map_subtrees in H23 as (d & Hd & H2).
  apply elem_of_flat_map_subtrees. exists d. split; [done|].
  rewrite Forall_forall in IH. by eapply IH.
Qed.

Lemma subtrees_dependency d dep :
  dep ∈ fd_dependencies d → dep ∈ subtrees d.
Proof.
  intros Hdep. rewrite subtrees_eq. right.
  apply elem_of_flat_map_subtrees. exists dep. split; [done|apply subtrees_refl].
Qed.

Section WalkProperties.

Variable ParseFromString : bytes -> option FileDescriptorProto.
Variable text_format : FileDescriptorProto -> string.

Local Abbreviation walk := (reverse_grpc_descriptor ParseFromString text_format).
Local Abbreviation gen_file := (generate_file ParseFromString text_format).

Lemma walk_eq d st :
  walk d st =
    if bool_decide (fd_name d ∈ processed st) then (st, inr tt)
    else
      match walk_each walk (fd_dependencies d) st with
      | (st1, inl e) => (st1, inl e)
      | (st1, inr _) =>
          let '(w, r) := gen_file (fd_serialized_pb d) (world st1) in
          let log := emitted st1 ++ [d] in
          match r with
          | inl e =>
              ({| processed := processed st1; world := w; emitted := log |},
               inl e)
          | inr _ =>
              ({| processed := {[fd_name d]} ∪ processed st1; world := w;
                  emitted := log |},
               inr tt)
          end
      end.
Proof. by destruct d. Qed.

Lemma walk_each_post deps :
  Forall (λ d, ∀ st,
            walk_post (tree_names d) [fd_name d] (acyclicb d)
                      st (fst (walk d st)) (snd (walk d st))) deps →
  ∀ st,
    walk_post (List.flat_map tree_names deps) (fd_name <$> deps)
              (forallb acyclicb deps)
              st (fst (walk_each walk deps st)) (snd (walk_each walk deps st)).
Proof.
  induction 1 as [|d deps Hd _ IH]; intros st; simpl.
  { exists []. rewrite app_nil_r. split; [done|].
    split; [by intros n ?%elem_of_nil|]. split; [intros _; constructor|].
    split; [by intros i e dep Hi|]. intros _.
    split; [set_solver|by intros n ?%elem_of_nil]. }
  specialize (Hd st). destruct (walk d st) as [st1 [e|[]]]; simpl in *.
  - destruct Hd as (new & Hlog & Hnames & Hnodup & Hord & Hok).
    exists new. split; [done|]. split; [|split; [|by split]].
    + intros n Hn. destruct (Hnames n Hn) as [Hreach Hfresh].
      split; [|done]. apply elem_of_app. by left.
    + intros [Hacyc _]%andb_true_iff. auto.
  - destruct Hd as (new1 & Hlog1 & Hnames1 & Hnodup1 & Hord1 & Hok1).
    destruct (Hok1 eq_refl) as [Hproc1 Hroot1].
    specialize (IH st1).
    destruct (walk_each walk deps st1) as [st' r]; simpl in *.
    destruct IH as (new2 & Hlog2 & Hnames2 & Hnodup2 & Hord2 & Hok2).
    exists (new1 ++ new2). split; [by rewrite Hlog2, Hlog1, app_assoc|].
    split; [|split; [|split]].
    + intros n. rewrite fmap_app, !elem_of_app. intros [Hn|Hn].
      * split; [left|]; by apply Hnames1.
      * destruct (Hnames2 n Hn) as [Hreach Hfresh].
        split; [by right|]. rewrite Hproc1 in Hfresh. set_solver.
    + intros [Hacyc1 Hacyc2]%andb_true_iff. rewrite fmap_app.
      apply NoDup_app. split; [auto|]. split; [|auto].
      intros n Hn1 Hn2. apply Hnames2 in Hn2 as [_ Hfresh].
      apply Hfresh. rewrite Hproc1. set_solver.
    + intros i e dep Hi Hdep.
      destruct (decide (i < length new1)%nat) as [Hlt|Hge].
      * rewrite lookup_app_l in Hi by done.
        rewrite take_app_le by lia. eauto.
      * rewrite lookup_app_r in Hi by lia.
        rewrite take_app_ge by lia. rewrite fmap_app, elem_of_app.
        destruct (Hord2 _ _ _ Hi Hdep) as [Hin|Hin]; [|by right; right].
        rewrite Hproc1 in Hin. set_solver.
    + intros Hr. destruct (Hok2 Hr) as [Hproc2 Hroot2]. split.
      * rewrite Hproc2, Hproc1, fmap_app, list_to_set_app_L. set_solver.
      * intros n [->|Hn]%elem_of_cons; [|by apply Hroot2].
        rewrite Hproc2. apply elem_of_union_l, Hroot1. by left.
Qed.

Lemma walk_post_holds d st :
  walk_post (tree_names d) [fd_name d] (acyclicb d)
            st (fst (walk d st)) (snd (walk d st)).
Proof.
  revert st. induction d as [name pb deps IHdeps] using FileDescriptor_ind.
  intros st. rewrite walk_eq, tree_names_eq, acyclicb_eq.
  cbn [fd_name fd_dependencies fd_serialized_pb].
  destruct (bool_decide_reflect (name ∈ processed st)) as [Hdone|Hfresh]; simpl.
  { exists []. rewrite app_nil_r. split; [done|].
    split; [by intros n ?%elem_of_nil|]. split; [intros _; constructor|].
    split; [by intros i e dep Hi|]. intros _.
    split; [set_solver|]. by intros n ->%list_elem_of_singleton. }
  pose proof (walk_each_post deps IHdeps st) as Hloop.
  destruct (walk_each walk deps st) as [st1 [e|[]]]; simpl in *.
  - destruct Hloop as (new & Hlog & Hnames & Hnodup & Hord & Hok).
    exists new. split; [done|]. split; [|split; [|by split]].
    + intros n Hn. destruct (Hnames n Hn) as [Hreach Hnew].
      split; [by right|done].
    + intros [_ Hacyc]%andb_true_iff. auto.
  - destruct Hloop as (new & Hlog & Hnames & Hnodup & Hord & Hok).
    destruct (Hok eq_refl) as [Hproc1 Hroots].
    set (d := mkFileDescriptor name pb deps).
    assert (∃ w r,
              gen_file pb (world st1) = (w, r)) as (w & r & ->).
    { destruct (gen_file pb (world st1)) as [w r]. by exists w, r. }
    exists (new ++ [d]).
    assert (emitted st1 ++ [d] = emitted st ++ new ++ [d]) as Hlog'.
    { by rewrite Hlog, app_assoc. }
    split; [by destruct r as [e|[]]|].
    split; [|split; [|split]].
    + intros n. rewrite fmap_app, elem_of_app. intros [Hn|Hn].
      * destruct (Hnames n Hn) as [Hreach Hnew]. split; [by right|done].
      * apply list_elem_of_singleton in Hn as ->. split; [by left|done].
    + intros [Hself Hacyc]%andb_true_iff. rewrite fmap_app.
      apply NoDup_app. split; [auto|]. split; [|apply NoDup_singleton].
      intros n Hn ->%list_elem_of_singleton.
      apply negb_true_iff, bool_decide_eq_false in Hself.
      apply Hself. by apply Hnames.
    + intros i e dep Hi Hdep.
      destruct (decide (i < length new)%nat) as [Hlt|Hge].
      * rewrite lookup_app_l in Hi by done.
        rewrite take_app_le by lia. eauto.
      * rewrite lookup_app_r in Hi by lia.
        apply list_lookup_singleton_Some in Hi as [Hi <-].
        rewrite take_app_ge by lia. rewrite fmap_app, elem_of_app.
        assert (fd_name dep ∈ processed st1) as Hin.
        { apply Hroots, list_elem_of_fmap. by exists dep. }
        rewrite Hproc1 in Hin. set_solver.
    + destruct r as [e|[]]; [done|]. intros _. simpl. split.
      * rewrite Hproc1, fmap_app, list_to_set_app_L. set_solver.
      * intros n ->%list_elem_of_singleton. set_solver.
Qed.

Lemma walk_monotone d st :
  snd (walk d st) = inr tt → processed st ⊆ processed (fst (walk d st)).
Proof.
  intros Hr. destruct (walk_post_holds d st) as (new & _ & _ & _ & _ & Hok).
  destruct (Hok Hr) as [-> _]. set_solver.
Qed.

Section Complete.

Variable U : list FileDescriptor.
Hypothesis U_unique :
  ∀ d1 d2, d1 ∈ U → d2 ∈ U → fd_name d1 = fd_name d2 → d1 = d2.
Hypothesis U_closed :
  ∀ d dep, d ∈ U → dep ∈ fd_dependencies d → dep ∈ U.

Local Abbreviation complete_at :=
  (walk_complete_at ParseFromString text_format U).

Lemma walk_each_complete deps :
  Forall complete_at deps →
  ∀ st, (∀ d, d ∈ deps → d ∈ U) → closed_under_deps U st →
        snd (walk_each walk deps st) = inr tt →
        closed_under_deps U (fst (walk_each walk deps st)) ∧
        ∀ n, n ∈ List.flat_map tree_names deps →
             n ∈ processed (fst (walk_each walk deps st)).
Proof.
  induction 1 as [|d deps Hd _ IH]; intros st HU Hclosed; simpl.
  { intros _. split; [done|]. by intros n ?%elem_of_nil. }
  specialize (Hd st (HU d ltac:(by left)) Hclosed).
  pose proof (walk_each_post deps
                (proj2 (Forall_forall _ _) (λ x _ st, walk_post_holds x st)))
    as Hpost.
  destruct (walk d st) as [st1 [e|[]]]; simpl in *; [done|].
  destruct (Hd eq_refl) as [Hclosed1 Hnames1].
  specialize (IH st1 (λ x Hx, HU x ltac:(by right)) Hclosed1).
  specialize (Hpost st1).
  destruct (walk_each walk deps st1) as [st' r]; simpl in *.
  intros ->. destruct (IH eq_refl) as [Hclosed' Hnames']. split; [done|].
  destruct Hpost as (new & _ & _ & _ & _ & Hok).
  destruct (Hok eq_refl) as [Hproc _].
  intros n [Hn|Hn]%elem_of_app; [|by apply Hnames'].
  rewrite Hproc. apply elem_of_union_l. by apply Hnames1.
Qed.

Lemma walk_complete d : complete_at d.
Proof.
  induction d as [name pb deps IHdeps] using FileDescriptor_ind.
  intros st HdU Hclosed. set (d := mkFileDescriptor name pb deps) in *.
  rewrite walk_eq, tree_names_eq.
  cbn [d fd_name fd_dependencies fd_serialized_pb].
  destruct (bool_decide_reflect (name ∈ processed st)) as [Hdone|Hfresh];
    simpl.
  { intros _. split; [done|]. intros n Hn.
    apply (Hclosed d HdU Hdone). by rewrite tree_names_eq. }
  pose proof (walk_each_complete deps IHdeps st
                (λ x Hx, U_closed d x HdU Hx) Hclosed) as Hloop.
  destruct (walk_each walk deps st) as [st1 [e|[]]]; simpl in *; [done|].
  destruct (Hloop eq_refl) as [Hclosed1 Hnames1].
  destruct (gen_file pb (world st1)) as [w [e|[]]]; simpl; [done|].
  intros _.
  assert (∀ n, n ∈ name :: List.flat_map tree_names deps →
               n ∈ {[name]} ∪ processed st1) as Hall.
  { intros n [->|Hn]%elem_of_cons; [set_solver|].
    apply elem_of_union_r. by apply Hnames1. }
  split; [|done].
  intros d' Hd' Hin n Hn. simpl in *.
  destruct (decide (fd_name d' = name)) as [Heq|Hne].
  - assert (d' = d) as -> by (by apply U_unique).
    apply Hall. by rewrite tree_names_eq in Hn.
  - apply elem_of_union_r. apply (Hclosed1 d' Hd'); [set_solver|done].
Qed.

End Complete.

Local Abbreviation run := (reverse_descriptor ParseFromString text_format).


End WalkProperties.

(** * The example, evaluated *)

Example api_file_text :
  fst (rendered api_file) =
    "syntax = " +:+ dquote +:+ "proto3" +:+ dquote +:+ ";" +:+ nl +:+
    "package svc;" +:+ nl +:+
    "import " +:+ dquote +:+ "b.proto" +:+ dquote +:+ ";" +:+ nl +:+
    "import " +:+ dquote +:+ "c.proto" +:+ dquote +:+ ";" +:+ nl +:+
    "service Api {" +:+ nl +:+
    "  rpc Watch (In) returns (stream Out);" +:+ nl +:+
    "}" +:+ nl.
Proof. by vm_compute. Qed.



Lemma api_unique_names : unique_names api_descriptor.
Proof.
  intros d1 d2 H1 H2 Hname.
  change (subtrees api_descriptor)
    with [api_descriptor; b_descriptor; types_descriptor;
          c_descriptor; types_descriptor] in *.
  repeat (apply elem_of_cons in H1 as [->|H1]);
    try (by apply elem_of_nil in H1);
    repeat (apply elem_of_cons in H2 as [->|H2]);
    try (by apply elem_of_nil in H2);
    first [reflexivity | by vm_compute in Hname].
Qed.


(** * Further properties *)

(** ** When rendering succeeds *)

Lemma is_ok_extract_field_type_str field :
  is_ok (extract_field_type_str field) = type_okb (field_type field).
Proof.
  destruct (decide (1 ≤ field_type field ≤ 18)) as [Ht|Ht].
  - unfold extract_field_type_str. rewrite TYPE_LABELS_lookup.
    generalize (last_item (split "." (field_type_name field))). intros seg.
    assert (field_type field ∈ (Z.of_nat <$> seq 1 18)) as Hin.
    { apply list_elem_of_fmap. exists (Z.to_nat (field_type field)).
      split; [lia|]. apply elem_of_seq. lia. }
    revert Hin. generalize (field_type field). apply Forall_forall.
    let l := eval vm_compute in (Z.of_nat <$> seq 1 18) in
    change (Z.of_nat <$> seq 1 18) with l.
    repeat (constructor; [by vm_compute|]). constructor.
  - rewrite (extract_field_type_str_unknown _ Ht). simpl. unfold type_okb.
    symmetry. apply andb_false_iff. left. apply andb_false_iff.
    destruct (Z.leb_spec 1 (field_type field)); [|by left].
    right. apply Z.leb_gt. lia.
Qed.

Lemma succeeds_bind {A B} (m : Out A) (k : A → Out B) :
  succeeds (bind m k) =
    match snd m with
    | inl _ => false
    | inr a => succeeds (k a)
    end.
Proof.
  destruct m as [o [e|a]]; [done|]. unfold succeeds. simpl.
  by destruct (k a).
Qed.

Lemma succeeds_foldM {S A} (body : S → A → Out S) (q : A → bool) l s :
  Forall (λ x, ∀ s', succeeds (body s' x) = q x) l →
  succeeds (foldM body l s) = forallb q l.
Proof.
  intros Hall. revert s. induction Hall as [|x l Hx _ IH]; intros s; [done|].
  simpl foldM. rewrite succeeds_bind. simpl forallb. rewrite <- (Hx s).
  unfold succeeds at 2. destruct (snd (body s x)); [done|]. by rewrite IH.
Qed.

Lemma succeeds_for_each {A} (body : A → Out unit) (q : A → bool) l :
  Forall (λ x, succeeds (body x) = q x) l →
  succeeds (for_each body l) = forallb q l.
Proof.
  intros Hall. apply succeeds_foldM.
  eapply Forall_impl; [exact Hall|]. by intros x Hx _.
Qed.

Lemma succeeds_for_each_total {A} (body : A → Out unit) l :
  (∀ x, snd (body x) = inr tt) → snd (for_each body l) = inr tt.
Proof. intros Hbody. by rewrite (for_each_total _ _ Hbody). Qed.

Lemma succeeds_generate_field field map_entries level :
  succeeds (generate_field field map_entries level) = field_okb field.
Proof.
  unfold field_okb. rewrite <- is_ok_extract_field_type_str.
  destruct (extract_field_type_str field) as [e|ty] eqn:Hty.
  { by rewrite (generate_field_raises _ _ _ _ Hty). }
  destruct (packed (field_options field)) eqn:Hp.
  - by destruct (generate_field_packed _ map_entries level _ Hty Hp) as [? ->].
  - destruct (map_entries !! ty) as [shortcut|] eqn:Hme.
    + by rewrite (generate_field_shortcut _ _ _ _ _ Hty Hme Hp).
    + by rewrite (generate_field_plain _ _ _ _ Hty Hme Hp).
Qed.

(** X1: whether a field renders depends on its type code and its packed
    option alone.  It renders exactly when the code is one of 1 to 18 other
    than the group kind and the packed option is not set.  A group kind
    raises NameError and an unknown code KeyError, both before anything is
    written; a packed field whose type has a display string raises
    TypeError after the line was written up to the opening bracket. *)
Theorem generate_field_outcome (field : FieldDescriptorProto)
    (map_entries : gmap string string) (level : string) :
  succeeds (generate_field field map_entries level) = field_okb field ∧
  (field_type field = TYPE_GROUP →
   generate_field field map_entries level
     = (EmptyString, inl (NameError "GROUP"))) ∧
  (¬ (1 ≤ field_type field ≤ 18) →
   generate_field field map_entries level
     = (EmptyString, inl (KeyError (field_type field)))) ∧
  (type_okb (field_type field) = true → packed (field_options field) = true →
   ∃ text,
     generate_field field map_entries level
       = (text +:+ "[", inl (TypeError "'FieldOptions' object is not iterable"))).
Proof.
  split; [apply succeeds_generate_field|]. split; [|split].
  - intros Hg. by apply generate_field_raises, extract_field_type_str_group.
  - intros Ht. by apply generate_field_raises, extract_field_type_str_unknown.
  - intros Hok Hp. rewrite <- is_ok_extract_field_type_str in Hok.
    destruct (extract_field_type_str field) as [e|ty] eqn:Hty; [done|].
    by eapply generate_field_packed.
Qed.

Lemma is_ok_extract_map_shortcut m :
  is_ok (extract_map_shortcut m) = entry_okb m.
Proof.
  unfold extract_map_shortcut, entry_okb.
  destruct (msg_field m) as [|key [|value rest]]; cbn.
  - done.
  - by destruct (extract_field_type_str key).
  - rewrite <- !is_ok_extract_field_type_str.
    destruct (extract_field_type_str key); cbn; [done|].
    by destruct (extract_field_type_str value).
Qed.

Lemma succeeds_generate_message m level :
  succeeds (generate_message m level) = renderableb m.
Proof.
  revert level.
  induction m as [name field nested enums opts IH] using DescriptorProto_ind.
  intros level. rewrite generate_message_eq.
  cbn [msg_name msg_field msg_nested_type msg_enum_type renderableb].
  rewrite !succeeds_bind. cbn [snd write].
  assert (succeeds (foldM (nested_body level) nested ∅)
          = forallb (fun n => if map_entry (msg_options n) then entry_okb n
                              else renderableb n) nested) as Hnested.
  { apply succeeds_foldM. eapply Forall_impl; [exact IH|].
    intros n Hn table. unfold nested_body.
    destruct (map_entry (msg_options n)).
    - rewrite succeeds_bind. cbn. rewrite <- is_ok_extract_map_shortcut.
      by destruct (extract_map_shortcut n).
    - rewrite succeeds_bind, <- (Hn (level +:+ "  ")). unfold succeeds.
      by destruct (snd (generate_message n (level +:+ "  "))) as [e|[]]. }
  rewrite <- Hnested. unfold succeeds at 2.
  destruct (snd (foldM (nested_body level) nested ∅)) as [e|table]; [done|].
  cbn. rewrite succeeds_bind, (succeeds_for_each_total _ enums)
    by (intros e; apply generate_enum_total).
  rewrite succeeds_bind.
  rewrite <- (succeeds_for_each
                (fun f => generate_field f table (level +:+ "  ")) field_okb field)
    by (apply Forall_forall; intros f _; apply succeeds_generate_field).
  unfold succeeds at 2.
  by destruct (snd (for_each _ field)) as [e|[]].
Qed.

Lemma succeeds_rendered file :
  succeeds (rendered file) = forallb renderableb (file_message_type file).
Proof.
  unfold rendered, file_body. rewrite !succeeds_bind. cbn [snd write].
  rewrite (succeeds_for_each_total _ (file_dependency file))
    by (intros d; apply generate_import_total).
  rewrite (succeeds_for_each_total _ (file_service file))
    by (intros sv; apply generate_service_total).
  rewrite (succeeds_for_each_total _ (file_enum_type file))
    by (intros e; apply generate_enum_total).
  transitivity (succeeds (for_each (λ x, generate_message x EmptyString)
                                   (file_message_type file)));
    [by destruct (0 <? _)%nat|].
  apply succeeds_for_each, Forall_forall. intros msg _.
  apply succeeds_generate_message.
Qed.

(** X2: a message renders exactly when each of its fields renders, each of
    its map-entry nested types has two leading fields whose types have
    display strings (whether or not a field refers to it), and each other
    nested message renders; the indentation plays no part.  A file renders
    exactly when all its top-level messages do: imports, services and enums
    never raise. *)
Theorem render_succeeds_iff :
  (∀ msg level, succeeds (generate_message msg level) = renderableb msg) ∧
  (∀ file, succeeds (rendered file)
           = forallb renderableb (file_message_type file)).
Proof. split; [apply succeeds_generate_message|apply succeeds_rendered]. Qed.

(** ** The exceptions of rendering *)

Lemma extract_field_type_str_render_error field e :
  extract_field_type_str field = inl e → render_error e.
Proof.
  intros He. pose proof (is_ok_extract_field_type_str field) as Hok.
  rewrite He in Hok. simpl in Hok.
  destruct (extract_field_type_str_errors _ _ He) as [[-> _]| ->]; [by left|].
  right. left. exists (field_type field). split; [done|]. intros Ht.
  symmetry in Hok. unfold type_okb in Hok.
  apply andb_false_iff in Hok as [Hok|Hok].
  - apply andb_false_iff in Hok as [Hok|Hok]; apply Z.leb_gt in Hok; lia.
  - apply negb_false_iff, Z.eqb_eq in Hok.
    by rewrite (extract_field_type_str_group _ Hok) in He.
Qed.

Lemma generate_field_render_error field map_entries level e :
  snd (generate_field field map_entries level) = inl e → render_error e.
Proof.
  destruct (extract_field_type_str field) as [e'|ty] eqn:Hty.
  - rewrite (generate_field_raises _ _ _ _ Hty). simpl. intros [= <-].
    by eapply extract_field_type_str_render_error.
  - destruct (packed (field_options field)) eqn:Hp.
    + destruct (generate_field_packed _ map_entries level _ Hty Hp) as [? ->].
      simpl. intros [= <-]. by do 3 right.
    + destruct (map_entries !! ty) as [shortcut|] eqn:Hme.
      * by rewrite (generate_field_shortcut _ _ _ _ _ Hty Hme Hp).
      * by rewrite (generate_field_plain _ _ _ _ Hty Hme Hp).
Qed.

Lemma extract_map_shortcut_render_error m e :
  extract_map_shortcut m = inl e → render_error e.
Proof.
  unfold extract_map_shortcut.
  destruct (msg_field m) as [|key [|value rest]]; cbn.
  - intros [= <-]. by right; right; left.
  - destruct (extract_field_type_str key) as [e'|k] eqn:Hk; cbn.
    + intros [= <-]. by eapply extract_field_type_str_render_error.
    + intros [= <-]. by right; right; left.
  - destruct (extract_field_type_str key) as [e'|k] eqn:Hk; cbn.
    { intros [= <-]. by eapply extract_field_type_str_render_error. }
    destruct (extract_field_type_str value) as [e'|v] eqn:Hv; cbn; [|done].
    intros [= <-]. by eapply extract_field_type_str_render_error.
Qed.

Lemma generate_message_render_error m level e :
  snd (generate_message m level) = inl e → render_error e.
Proof.
  revert level.
  induction m as [name field nested enums opts IH] using DescriptorProto_ind.
  intros level. rewrite generate_message_eq.
  cbn [msg_name msg_field msg_nested_type msg_enum_type].
  match goal with |- snd ?m = _ → _ => destruct m as [out r] eqn:Hrun end.
  simpl. intros ->.
  apply bind_err_inv in Hrun as [?|(? & [] & ? & _ & H1)]; [done|].
  apply bind_err_inv in H1 as [?|(? & [] & ? & _ & H2)]; [done|].
  apply bind_err_inv in H2 as [Hn|(? & map_entries & ? & _ & H3)].
  { apply foldM_err_inv in Hn as (sub & table & Hsub & Hbody).
    unfold nested_body in Hbody. destruct (map_entry (msg_options sub)).
    - destruct (extract_map_shortcut sub) as [err|sc] eqn:Hsc; [|done].
      injection Hbody as ->. by eapply extract_map_shortcut_render_error.
    - rewrite Forall_forall in IH.
      destruct (generate_message sub (level +:+ "  ")) as [o [err|[]]] eqn:Hgen;
        [|done].
      injection Hbody as ->. apply (IH sub Hsub (level +:+ "  ")).
      by rewrite Hgen. }
  apply bind_err_inv in H3 as [He|(? & [] & ? & _ & H4)].
  { apply for_each_err_inv in He as (en & _ & He).
    by rewrite generate_enum_total in He. }
  apply bind_err_inv in H4 as [Hf|(? & [] & ? & _ & ?)]; [|done].
  apply for_each_err_inv in Hf as (fld & Hin & Hf).
  by eapply generate_field_render_error.
Qed.

Lemma rendered_render_error (file : FileDescriptorProto) (e : error) :
  snd (rendered file) = inl e → render_error e.
Proof.
  unfold rendered, file_body.
  match goal with |- snd ?m = _ → _ => destruct m as [out r] eqn:Hrun end.
  simpl. intros ->.
  apply bind_err_inv in Hrun as [?|(? & [] & ? & _ & H1)]; [done|].
  apply bind_err_inv in H1 as [?|(? & [] & ? & _ & H2)].
  { by destruct (0 <? _)%nat. }
  apply bind_err_inv in H2 as [Hi|(? & [] & ? & _ & H3)].
  { apply for_each_err_inv in Hi as (dep & _ & Hd).
    by rewrite generate_import_total in Hd. }
  apply bind_err_inv in H3 as [Hs|(? & [] & ? & _ & H4)].
  { apply for_each_err_inv in Hs as (sv & _ & Hsv).
    by rewrite generate_service_total in Hsv. }
  apply bind_err_inv in H4 as [He|(? & [] & ? & _ & H5)].
  { apply for_each_err_inv in He as (en & _ & He).
    by rewrite generate_enum_total in He. }
  apply for_each_err_inv in H5 as (msg & Hin & Hmsg).
  by eapply generate_message_render_error.
Qed.

(** X3: rendering a file can end with four exceptions only: NameError
    GROUP, KeyError on a type code outside 1 to 18, IndexError on a map
    entry with fewer than two fields, and TypeError on the options of a
    packed field.  The import loop and [relative_to] never raise. *)
Theorem rendered_errors (file : FileDescriptorProto) (e : error) :
  snd (rendered file) = inl e → render_error e.
Proof. apply rendered_render_error. Qed.

Lemma rendered_errors_witness : render_error (NameError "GROUP").
Proof. apply (rendered_errors legacy_file). by vm_compute. Defined.

(** ** Map entries *)

(** X4: a map entry with fewer than two fields has no shorthand.  When the
    fields it has resolve to type strings the exception is IndexError; a
    field whose type does not resolve raises its own exception first. *)
Theorem extract_map_shortcut_short (m : DescriptorProto) :
  (length (msg_field m) < 2)%nat →
  is_ok (extract_map_shortcut m) = false ∧
  (forallb (fun f => type_okb (field_type f)) (msg_field m) = true →
   extract_map_shortcut m = inl IndexError) ∧
  (∀ key e, msg_field m = [key] → extract_field_type_str key = inl e →
            extract_map_shortcut m = inl e).
Proof.
  intros Hlen. unfold extract_map_shortcut.
  destruct (msg_field m) as [|key [|value rest]]; simpl in Hlen; [| |lia].
  - by cbn.
  - cbn. rewrite <- is_ok_extract_field_type_str.
    destruct (extract_field_type_str key) as [e|k] eqn:Hk; cbn.
    + split; [done|]. split; [done|]. intros ? ? [= <-] He. congruence.
    + split; [done|]. split; [done|]. intros ? ? [= <-] He. congruence.
Qed.

Lemma extract_map_shortcut_short_witness :
  is_ok (extract_map_shortcut
           (mkDescriptorProto "E" [scalar_field "key" 1 TYPE_STRING 1] [] []
              {| map_entry := true |})) = false.
Proof.
  apply (extract_map_shortcut_short
           (mkDescriptorProto "E" [scalar_field "key" 1 TYPE_STRING 1] [] []
              {| map_entry := true |})).
  simpl. lia.
Defined.

Lemma foldM_app_ok_inv {S A} (body : S → A → Out S) l1 l2 s out r :
  foldM body (l1 ++ l2) s = (out, inr r) →
  ∃ o1 s1 o2,
    foldM body l1 s = (o1, inr s1) ∧ foldM body l2 s1 = (o2, inr r) ∧
    out = o1 +:+ o2.
Proof.
  revert s out. induction l1 as [|x l1 IH]; intros s out; simpl.
  { intros H. by exists EmptyString, s, out. }
  intros (ox & sx & orest & Hx & Hrest & ->)%bind_ok_inv.
  destruct (IH _ _ Hrest) as (o1 & s1 & o2 & H1 & H2 & ->).
  exists (ox +:+ o1), s1, o2. rewrite Hx. simpl. rewrite H1.
  split; [done|]. split; [done|]. by rewrite str_app_assoc.
Qed.

(** X5: when several map-entry nested types of a message share a name, a
    field whose type string is that name is rendered with the shorthand of
    the last of them: the table of shorthands is keyed by name and a later
    entry replaces an earlier one. *)
Theorem map_shorthand_last_wins (msg : DescriptorProto) (level out : string)
    (f : FieldDescriptorProto) (before after : list DescriptorProto)
    (entry : DescriptorProto) :
  generate_message msg level = (out, inr tt) →
  msg_nested_type msg = before ++ entry :: after →
  map_entry (msg_options entry) = true →
  (∀ e, e ∈ after → map_entry (msg_options e) = true →
        msg_name e ≠ msg_name entry) →
  f ∈ msg_field msg →
  extract_field_type_str f = inr (msg_name entry) →
  ∃ shortcut nested_out map_entries,
    extract_map_shortcut entry = inr shortcut ∧
    foldM (nested_body level) (msg_nested_type msg) ∅
      = (nested_out, inr map_entries) ∧
    map_entries !! msg_name entry = Some shortcut ∧
    generate_field f map_entries (level +:+ "  ")
      = (level +:+ "  " +:+ shortcut +:+ " " +:+ field_name f +:+ " = "
           +:+ str_int (field_number f) +:+ ";" +:+ nl,
         inr tt).
Proof.
  intros Hok Hnested Hmap Hafter Hin Hty.
  apply generate_message_ok_inv in Hok
    as (nested_out & map_entries & Hloop & Hfields & _).
  pose proof Hloop as Hloop'. rewrite Hnested in Hloop'.
  apply foldM_app_ok_inv in Hloop' as (o1 & table1 & o2 & _ & Htail & _).
  assert (∃ shortcut, extract_map_shortcut entry = inr shortcut)
    as [shortcut Hshortcut].
  { simpl in Htail.
    apply bind_ok_inv in Htail as (? & table2 & ? & Hentry & _ & _).
    unfold nested_body in Hentry. rewrite Hmap in Hentry.
    destruct (extract_map_shortcut entry) as [e|sc]; [done|]. by exists sc. }
  assert (map_entries !! msg_name entry = Some shortcut) as Hlookup.
  { eapply nested_loop_table; [exact Htail| |].
    - intros e [->|He]%elem_of_cons Hmap' Hname; [done|].
      by destruct (Hafter e He Hmap').
    - right. exists entry. split; [by left|done]. }
  exists shortcut, nested_out, map_entries.
  split; [done|]. split; [done|]. split; [done|].
  rewrite Forall_forall in Hfields. specialize (Hfields f Hin).
  destruct (generate_field f map_entries (level +:+ "  ")) as [o r] eqn:Hf.
  simpl in Hfields. subst r.
  pose proof (generate_field_ok_unpacked _ _ _ _ Hf) as Hpacked.
  rewrite (generate_field_shortcut f map_entries _ _ _ Hty Hlookup Hpacked) in Hf.
  rewrite <- Hf. by str_norm.
Qed.

Lemma map_shorthand_last_wins_witness :
  ∃ shortcut nested_out map_entries,
    extract_map_shortcut second_entry = inr shortcut ∧
    foldM (nested_body EmptyString) (msg_nested_type shadowed_message) ∅
      = (nested_out, inr map_entries) ∧
    map_entries !! msg_name second_entry = Some shortcut ∧
    generate_field index_field map_entries (EmptyString +:+ "  ")
      = (EmptyString +:+ "  " +:+ shortcut +:+ " " +:+ field_name index_field
           +:+ " = " +:+ str_int (field_number index_field) +:+ ";" +:+ nl,
         inr tt).
Proof.
  apply (map_shorthand_last_wins shadowed_message EmptyString
           (fst (generate_message shadowed_message EmptyString)) index_field
           [first_entry] [] second_entry).
  - by vm_compute.
  - reflexivity.
  - reflexivity.
  - by intros e ?%elem_of_nil.
  - apply list_elem_of_here.
  - reflexivity.
Defined.

Example shadowed_message_text :
  generate_message shadowed_message EmptyString =
    ("message Shadow" +:+ nl +:+ "{" +:+ nl +:+
     "  map<int64,bool> index = 7;" +:+ nl +:+ "}" +:+ nl,
     inr tt).
Proof. by vm_compute. Qed.

(** ** Import paths under the output root *)

Lemma mkPath_protobuf s : mkPath ("protobuf/" +:+ s) = "protobuf" :: mkPath s.
Proof. reflexivity. Qed.

Lemma parent_cons x (l : Path) : l ≠ [] → parent (x :: l) = x :: parent l.
Proof. by destruct l. Qed.

Lemma parent_as_take (l : Path) : parent l = take (length l - 1) l.
Proof.
  unfold parent. rewrite removelast_firstn_len. by rewrite Nat.sub_1_r.
Qed.

Lemma parent_take (l : Path) n :
  (n ≤ length l)%nat → parent (take n l) = take (n - 1) l.
Proof.
  intros Hn. rewrite parent_as_take, length_take, take_take. f_equal. lia.
Qed.

Lemma iter_parent (l : Path) j : Nat.iter j parent l = take (length l - j) l.
Proof.
  induction j as [|j IH]; simpl.
  - by rewrite Nat.sub_0_r, firstn_all.
  - rewrite IH, parent_take by lia. f_equal. lia.
Qed.

Lemma no_dotdot_spec (p : Path) : no_dotdot p = true ↔ ".." ∉ p.
Proof.
  unfold no_dotdot. induction p as [|x p IH]; simpl.
  { split; [intros _ []%elem_of_nil|done]. }
  rewrite andb_true_iff, IH, not_elem_of_cons, negb_true_iff, String.eqb_neq.
  split; intros [Hx Hp]; (split; [|done]); intros Heq; by apply Hx.
Qed.

(** X6: when neither the importing file's name nor the dependency's name
    has a [..] segment, and the file's name has at least one segment, the
    import of a dependency outside the well-known namespace stays under the
    output root and never names it: the path is at most as many [../] as
    the importing file has directories, followed by what is left of the
    dependency's own path, free of [..], after the directories the two
    files share. *)
Theorem import_stays_under_root (dep name : string) :
  startswith dep "google" = false →
  mkPath name ≠ [] →
  no_dotdot (mkPath name) = true →
  no_dotdot (mkPath dep) = true →
  ∃ steps rest,
    (steps ≤ length (parent (mkPath name)))%nat ∧
    mkPath dep
      = take (length (parent (mkPath name)) - steps) (parent (mkPath name))
          ++ rest ∧
    (".." ∉ rest) ∧
    generate_import dep (parent (mkPath ("protobuf/" +:+ name))) =
      ("import " +:+ dquote +:+ ups steps +:+ path_str rest +:+ dquote
         +:+ ";" +:+ nl,
       inr tt).
Proof.
  intros Hgoogle Hname _ Hdep.
  destruct (generate_import_spec dep (parent (mkPath ("protobuf/" +:+ name)))
              Hgoogle) as (steps & Hmin & Hrel & Heq).
  rewrite !mkPath_protobuf in *. rewrite parent_cons in * by done.
  set (dir := parent (mkPath name)) in *.
  assert (steps ≤ length dir)%nat as Hsteps.
  { destruct (decide (steps ≤ length dir)%nat) as [|Hgt]; [done|].
    specialize (Hmin (length dir) ltac:(lia)).
    rewrite iter_parent in Hmin. simpl in Hmin.
    replace (S (length dir) - length dir)%nat with 1%nat in Hmin by lia.
    by vm_compute in Hmin. }
  rewrite iter_parent in Hrel, Heq. simpl length in Hrel, Heq.
  replace (S (length dir) - steps)%nat with (S (length dir - steps)) in Hrel, Heq
    by lia.
  simpl take in Hrel, Heq. unfold is_relative_to in Hrel.
  apply is_prefix_spec in Hrel as [rest Hrest].
  injection Hrest as Hrest. exists steps, rest. split; [done|].
  split; [done|]. split.
  - apply no_dotdot_spec in Hdep. rewrite Hrest in Hdep.
    intros Hin. apply Hdep, elem_of_app. by right.
  - rewrite Heq. simpl length. simpl drop. rewrite Hrest at 1.
    by rewrite drop_app_length.
Qed.

Lemma import_stays_under_root_witness :
  ∃ steps rest,
    (steps ≤ length (parent (mkPath "a/b/x.proto")))%nat ∧
    mkPath "a/c/y.proto"
      = take (length (parent (mkPath "a/b/x.proto")) - steps)
             (parent (mkPath "a/b/x.proto")) ++ rest ∧
    (".." ∉ rest) ∧
    generate_import "a/c/y.proto" (parent (mkPath ("protobuf/" +:+ "a/b/x.proto")))
      = ("import " +:+ dquote +:+ ups steps +:+ path_str rest +:+ dquote
           +:+ ";" +:+ nl,
         inr tt).
Proof.
  apply (import_stays_under_root "a/c/y.proto" "a/b/x.proto");
    [reflexivity|by vm_compute|reflexivity|reflexivity].
Defined.

(** A dependency name with a [..] segment is not resolved: the segment is
    copied into the import path, which then leaves the output root. *)
Example import_dotdot_dependency :
  generate_import "../y.proto" (parent (mkPath "protobuf/a/x.proto")) =
    ("import " +:+ dquote +:+ "../../y.proto" +:+ dquote +:+ ";" +:+ nl, inr tt).
Proof. by vm_compute. Qed.

Example import_sibling_directory :
  generate_import "a/c/y.proto" (parent (mkPath "protobuf/a/b/x.proto")) =
    ("import " +:+ dquote +:+ "../c/y.proto" +:+ dquote +:+ ";" +:+ nl, inr tt).
Proof. by vm_compute. Qed.

(** ** The layout of a file *)

Lemma bind_total {A B} (m : Out A) (k : A → Out B) a :
  snd m = inr a → bind m k = (fst m +:+ fst (k a), snd (k a)).
Proof. destruct m as [o r]. simpl. intros ->. by destruct (k a). Qed.

(** X7: the text of a file is always, in this order, the syntax line, the
    package line if the package is not empty, the import lines, the
    services and the top-level enums, all complete, followed by what was
    written of the messages; how rendering ends is how the loop over the
    messages ends. *)
Theorem file_text_layout (file : FileDescriptorProto) :
  let dir := parent (mkPath ("protobuf/" +:+ file_name file)) in
  let messages :=
    for_each (fun x => generate_message x EmptyString) (file_message_type file) in
  fst (rendered file) =
    "syntax = " +:+ dquote +:+ file_syntax file +:+ dquote +:+ ";" +:+ nl
      +:+ (if decide (file_package file = EmptyString) then EmptyString
           else "package " +:+ file_package file +:+ ";" +:+ nl)
      +:+ concat_str (map (λ d, fst (generate_import d dir)) (file_dependency file))
      +:+ concat_str (map (λ s, fst (generate_service s)) (file_service file))
      +:+ concat_str (map (λ e, fst (generate_enum e EmptyString))
                          (file_enum_type file))
      +:+ fst messages ∧
  snd (rendered file) = snd messages.
Proof.
  intros dir messages. unfold rendered, file_body. fold dir. fold messages.
  rewrite (bind_total (write _) _ tt) by done.
  rewrite (bind_total (if (0 <? _)%nat then _ else _) _ tt)
    by (by destruct (0 <? _)%nat).
  rewrite (for_each_total _ (file_dependency file))
    by (intros d; apply generate_import_total).
  rewrite (for_each_total _ (file_service file))
    by (intros sv; apply generate_service_total).
  rewrite (for_each_total _ (file_enum_type file))
    by (intros e; apply generate_enum_total).
  cbn [bind fst snd write]. destruct messages as [text r]. cbn [fst snd].
  split; [|done].
  destruct (decide (file_package file = EmptyString)) as [->|Hpkg].
  - cbn. by str_norm.
  - destruct (file_package file) as [|c pkg] eqn:Hp; [done|]. cbn. by str_norm.
Qed.

(** ** Writing files and walking, further *)

Section RunProperties.

Variable ParseFromString : bytes -> option FileDescriptorProto.
Variable text_format : FileDescriptorProto -> string.

Local Abbreviation walk := (reverse_grpc_descriptor ParseFromString text_format).
Local Abbreviation gen_file := (generate_file ParseFromString text_format).
Local Abbreviation run := (reverse_descriptor ParseFromString text_format).
Local Abbreviation outcome := (file_outcome ParseFromString).

Lemma generate_file_outcome d w :
  snd (gen_file (fd_serialized_pb d) w) = outcome d.
Proof.
  unfold file_outcome.
  destruct (ParseFromString (fd_serialized_pb d)) as [file|] eqn:Hparse.
  - by rewrite (generate_file_parsed _ _ _ _ _ Hparse).
  - by rewrite (generate_file_malformed _ _ _ _ Hparse).
Qed.

Lemma generate_file_dom data w :
  dom (files w) ⊆ dom (files (fst (gen_file data w))).
Proof.
  destruct (ParseFromString data) as [file|] eqn:Hparse.
  - rewrite (generate_file_parsed _ _ _ _ _ Hparse). simpl.
    rewrite dom_insert_L. set_solver.
  - by rewrite (generate_file_malformed _ _ _ _ Hparse).
Qed.

Lemma generate_file_written d w path :
  written_path ParseFromString d = Some path →
  path ∈ dom (files (fst (gen_file (fd_serialized_pb d) w))).
Proof.
  unfold written_path.
  destruct (ParseFromString (fd_serialized_pb d)) as [file|] eqn:Hparse; [|done].
  intros [= <-]. rewrite (generate_file_parsed _ _ _ _ _ Hparse). simpl.
  rewrite dom_insert_L. set_solver.
Qed.

Lemma walk_each_outcome deps :
  Forall (λ d, ∀ st,
            walk_outcome ParseFromString st (fst (walk d st)) (snd (walk d st)))
         deps →
  ∀ st, walk_outcome ParseFromString st
          (fst (walk_each walk deps st)) (snd (walk_each walk deps st)).
Proof.
  induction 1 as [|d deps Hd _ IH]; intros st; simpl.
  { exists []. rewrite app_nil_r. split; [done|]. split; [done|].
    split; [constructor|]. split; [constructor|]. set_solver. }
  specialize (Hd st). destruct (walk d st) as [st1 [e|[]]]; simpl in *; [done|].
  destruct Hd as (new1 & Hlog1 & Hdom1 & Hok1 & Hpaths1 & Hproc1).
  specialize (IH st1). destruct (walk_each walk deps st1) as [st' r]; simpl in *.
  destruct IH as (new2 & Hlog2 & Hdom2 & Hr).
  exists (new1 ++ new2). split; [by rewrite Hlog2, Hlog1, app_assoc|].
  split; [set_solver|]. destruct r as [e|[]].
  - destruct Hr as (before & failing & -> & Hbefore & Hfail & Hproc2).
    exists (new1 ++ before), failing. split; [by rewrite app_assoc|].
    split; [by apply Forall_app|]. split; [done|].
    rewrite Hproc2, Hproc1, fmap_app, list_to_set_app_L. set_solver.
  - destruct Hr as (Hok2 & Hpaths2 & Hproc2).
    split; [by apply Forall_app|]. split.
    + apply Forall_app. split; [|done].
      eapply Forall_impl; [exact Hpaths1|]. intros f Hf path Hpath.
      apply Hdom2. by apply Hf.
    + rewrite Hproc2, Hproc1, fmap_app, list_to_set_app_L. set_solver.
Qed.

Lemma walk_outcome_holds d st :
  walk_outcome ParseFromString st (fst (walk d st)) (snd (walk d st)).
Proof.
  revert st. induction d as [name pb deps IHdeps] using FileDescriptor_ind.
  intros st. rewrite walk_eq.
  cbn [fd_name fd_dependencies fd_serialized_pb].
  destruct (bool_decide_reflect (name ∈ processed st)) as [Hdone|Hfresh]; simpl.
  { exists []. rewrite app_nil_r. split; [done|]. split; [done|].
    split; [constructor|]. split; [constructor|]. set_solver. }
  pose proof (walk_each_outcome deps IHdeps st) as Hloop.
  destruct (walk_each walk deps st) as [st1 [e|[]]]; simpl in *; [done|].
  destruct Hloop as (new & Hlog & Hdom & Hok & Hpaths & Hproc).
  set (d := mkFileDescriptor name pb deps).
  pose proof (generate_file_outcome d (world st1)) as Hout.
  pose proof (generate_file_dom pb (world st1)) as Hdom'.
  pose proof (generate_file_written d (world st1)) as Hwritten.
  cbn [d fd_serialized_pb] in Hout, Hwritten.
  destruct (gen_file pb (world st1)) as [w r]. simpl in Hout, Hdom', Hwritten.
  exists (new ++ [d]).
  assert (emitted st1 ++ [d] = emitted st ++ new ++ [d]) as Hlog'.
  { by rewrite Hlog, app_assoc. }
  destruct r as [e|[]]; simpl.
  - split; [done|]. split; [set_solver|].
    exists new, d. by rewrite <- Hout.
  - split; [done|]. split; [set_solver|].
    split; [apply Forall_app; split; [done|]; by repeat constructor|].
    split.
    + apply Forall_app. split.
      * eapply Forall_impl; [exact Hpaths|]. intros f Hf path Hpath.
        apply Hdom'. by apply Hf.
      * by repeat constructor.
    + rewrite Hproc, fmap_app, list_to_set_app_L. simpl. set_solver.
Qed.

Lemma subtrees_tree_names d root :
  d ∈ subtrees root → fd_name d ∈ tree_names root.
Proof.
  induction root as [name pb deps IH] using FileDescriptor_ind.
  rewrite subtrees_eq, tree_names_eq. simpl.
  intros [->|Hd]%elem_of_cons; [by left|]. right.
  apply elem_of_flat_map_subtrees in Hd as (x & Hx & Hd).
  apply elem_of_flat_map_tree_names. exists x. split; [done|].
  rewrite Forall_forall in IH. by apply IH.
Qed.

(** X9: from any state, a walk hands to [__generate_file] only descriptors
    under its root whose names were not processed when it started, each
    after all its dependencies that were not processed then; and it never
    removes a name from the processed set, however it ends. *)
Theorem walk_from_any_state (d : FileDescriptor) (st : WalkState) :
  ∃ new,
    emitted (fst (walk d st)) = emitted st ++ new ∧
    (∀ f, f ∈ new → fd_name f ∈ tree_names d ∧ fd_name f ∉ processed st) ∧
    (∀ i e dep,
       new !! i = Some e → dep ∈ fd_dependencies e →
       fd_name dep ∈ processed st
       ∨ ∃ j, (j < i)%nat ∧ fd_name <$> new !! j = Some (fd_name dep)) ∧
    processed st ⊆ processed (fst (walk d st)).
Proof.
  destruct (walk_post_holds ParseFromString text_format d st)
    as (new & Hlog & Hnames & _ & Hord & _).
  destruct (walk_outcome_holds d st) as (new' & Hlog' & _ & Hr).
  exists new. split; [done|]. split; [|split].
  - intros f Hf. apply Hnames, list_elem_of_fmap. by exists f.
  - intros i e dep Hi Hdep.
    destruct (Hord i e dep Hi Hdep) as [Hin|Hin]; [by left|]. right.
    apply list_elem_of_lookup in Hin as [j Hj]. exists j.
    pose proof (lookup_lt_Some _ _ _ Hj) as Hlt.
    rewrite length_fmap, length_take in Hlt. split; [lia|].
    rewrite list_lookup_fmap, lookup_take_lt in Hj by lia. done.
  - destruct (snd (walk d st)) as [e|[]].
    + destruct Hr as (? & ? & _ & _ & _ & ->). set_solver.
    + destruct Hr as (_ & _ & ->). set_solver.
Qed.

(** X10: when names identify files, a completed run has processed every
    file under the root, so walking any of them again with the same
    processed set returns at once and renders nothing. *)
Theorem rerun_is_noop (root d : FileDescriptor) (w : World) :
  unique_names root →
  snd (run root w) = inr tt →
  d ∈ subtrees root →
  walk d (fst (run root w)) = (fst (run root w), inr tt).
Proof.
  intros Huniq Hr Hd. unfold reverse_descriptor in *.
  set (st0 := {| processed := ∅; world := w; emitted := [] |}) in *.
  destruct (walk_complete ParseFromString text_format (subtrees root))
    with (d := root) (st := st0) as [_ Hall].
  - exact Huniq.
  - intros x dep Hx Hdep.
    eapply subtrees_trans; [by apply subtrees_dependency|done].
  - apply subtrees_refl.
  - intros x _ Hin. set_solver.
  - exact Hr.
  - rewrite walk_eq. rewrite bool_decide_eq_true_2; [done|].
    by apply Hall, subtrees_tree_names.
Qed.




(** X12: when a walk returns, every descriptor it handed to
    [__generate_file] had bytes that parse and a file that rendered without
    exception, the file is in the output root at the descriptor's output
    path, and the names added to the processed set are exactly theirs. *)
Theorem walk_success_renders_all (d : FileDescriptor) (st : WalkState) :
  snd (walk d st) = inr tt →
  ∃ new,
    emitted (fst (walk d st)) = emitted st ++ new ∧
    Forall (λ f, ∃ file,
              ParseFromString (fd_serialized_pb f) = Some file ∧
              snd (rendered file) = inr tt ∧
              output_path file ∈ dom (files (world (fst (walk d st))))) new ∧
    processed (fst (walk d st))
      = processed st ∪ list_to_set (fd_name <$> new).
Proof.
  intros Hr. destruct (walk_outcome_holds d st) as (new & Hlog & _ & Hout).
  rewrite Hr in Hout. destruct Hout as (Hok & Hpaths & Hproc).
  exists new. split; [done|]. split; [|done].
  rewrite Forall_forall in Hok, Hpaths. apply Forall_forall. intros f Hf.
  specialize (Hok f Hf). specialize (Hpaths f Hf).
  unfold file_outcome, written_path in *.
  destruct (ParseFromString (fd_serialized_pb f)) as [file|]; [|done].
  exists file. split; [done|]. split; [done|]. by apply Hpaths.
Qed.

End RunProperties.

Lemma rerun_is_noop_witness :
  reverse_grpc_descriptor example_parse example_text types_descriptor
    (fst (reverse_descriptor example_parse example_text api_descriptor clean_world))
  = (fst (reverse_descriptor example_parse example_text api_descriptor clean_world),
     inr tt).
Proof.
  apply (rerun_is_noop example_parse example_text api_descriptor
           types_descriptor clean_world).
  - apply api_unique_names.
  - by vm_compute.
  - change (subtrees api_descriptor)
      with [api_descriptor; b_descriptor; types_descriptor;
            c_descriptor; types_descriptor].
    apply list_elem_of_further, list_elem_of_further, list_elem_of_here.
Defined.


Example mixed_walk_log :
  fd_name <$> emitted (fst (reverse_grpc_descriptor example_parse example_text
                              mixed_descriptor fresh_state))
    = ["common/types.proto"; "legacy.proto"].
Proof. by vm_compute. Qed.

Lemma walk_success_renders_all_witness :
  ∃ new,
    emitted (fst (reverse_grpc_descriptor example_parse example_text
                    api_descriptor fresh_state))
      = emitted fresh_state ++ new ∧
    Forall (λ f, ∃ file,
              example_parse (fd_serialized_pb f) = Some file ∧
              snd (rendered file) = inr tt ∧
              output_path file
                ∈ dom (files (world (fst (reverse_grpc_descriptor example_parse
                                            example_text api_descriptor
                                            fresh_state))))) new ∧
    processed (fst (reverse_grpc_descriptor example_parse example_text
                      api_descriptor fresh_state))
      = processed fresh_state ∪ list_to_set (fd_name <$> new).
Proof.
  apply (walk_success_renders_all example_parse example_text api_descriptor
           fresh_state).
  by vm_compute.
Defined.

(** ** The layout of a message *)

Lemma nested_loop_table_inv level nested map_entries0 out map_entries n s :
  foldM (nested_body level) nested map_entries0 = (out, inr map_entries) →
  map_entries !! n = Some s →
  map_entries0 !! n = Some s
  ∨ ∃ e, e ∈ nested ∧ map_entry (msg_options e) = true ∧ msg_name e = n ∧
         extract_map_shortcut e = inr s.
Proof.
  revert map_entries0 out. induction nested as [|m nested IH];
    intros map_entries0 out; simpl foldM.
  { intros [= _ <-] Hn. by left. }
  intros (o1 & me1 & o2 & Hm & Hrest & ->)%bind_ok_inv Hn.
  destruct (IH _ _ Hrest Hn) as [H1|(e & He & Hmap & Hname & Hsc)].
  - unfold nested_body in Hm. destruct (map_entry (msg_options m)) eqn:Hmap.
    + apply bind_ok_inv in Hm as (? & s' & ? & Hs & [= _ <-] & _).
      unfold lift in Hs. injection Hs as _ Hs.
      destruct (decide (msg_name m = n)) as [Heq|Hne].
      * rewrite Heq, lookup_insert_eq in H1. injection H1 as ->.
        right. exists m. split; [by left|done].
      * rewrite lookup_insert_ne in H1 by done. by left.
    + apply bind_ok_inv in Hm as (? & [] & ? & _ & [= _ <-] & _). by left.
  - right. exists e. split; [by right|done].
Qed.

(** X13: the text of a message that renders is its two header lines, the
    nested messages that are not map entries, the enums, the fields and the
    closing line, in this order whatever the order of declaration, the
    nested parts two spaces deeper; and every shorthand the fields are
    rendered with is that of a map-entry nested type of the message. *)
Theorem message_text_layout (msg : DescriptorProto) (level out : string) :
  generate_message msg level = (out, inr tt) →
  ∃ map_entries,
    (∀ n shortcut,
       map_entries !! n = Some shortcut →
       ∃ entry, entry ∈ msg_nested_type msg ∧
                map_entry (msg_options entry) = true ∧
                msg_name entry = n ∧
                extract_map_shortcut entry = inr shortcut) ∧
    out = level +:+ "message " +:+ msg_name msg +:+ nl
            +:+ level +:+ "{" +:+ nl
            +:+ concat_str
                  (map (λ m, fst (generate_message m (level +:+ "  ")))
                       (declared_nested msg))
            +:+ concat_str
                  (map (λ e, fst (generate_enum e (level +:+ "  ")))
                       (msg_enum_type msg))
            +:+ concat_str
                  (map (λ f, fst (generate_field f map_entries (level +:+ "  ")))
                       (msg_field msg))
            +:+ level +:+ "}" +:+ nl.
Proof.
  intros Hok. apply generate_message_ok_inv in Hok
    as (nested_out & map_entries & Hnested & _ & ->).
  exists map_entries. split.
  - intros n shortcut Hn.
    by destruct (nested_loop_table_inv _ _ _ _ _ _ _ Hnested Hn) as [?|?].
  - by rewrite (nested_loop_text _ _ _ _ _ Hnested).
Qed.

Lemma message_text_layout_witness :
  ∃ map_entries,
    (∀ n shortcut,
       map_entries !! n = Some shortcut →
       ∃ entry, entry ∈ msg_nested_type stats_message ∧
                map_entry (msg_options entry) = true ∧
                msg_name entry = n ∧
                extract_map_shortcut entry = inr shortcut) ∧
    fst (generate_message stats_message "  ") =
      "  " +:+ "message " +:+ msg_name stats_message +:+ nl
        +:+ "  " +:+ "{" +:+ nl
        +:+ concat_str
              (map (λ m, fst (generate_message m ("  " +:+ "  ")))
                   (declared_nested stats_message))
        +:+ concat_str
              (map (λ e, fst (generate_enum e ("  " +:+ "  ")))
                   (msg_enum_type stats_message))
        +:+ concat_str
              (map (λ f, fst (generate_field f map_entries ("  " +:+ "  ")))
                   (msg_field stats_message))
        +:+ "  " +:+ "}" +:+ nl.
Proof.
  apply (message_text_layout stats_message "  "
           (fst (generate_message stats_message "  "))).
  by vm_compute.
Defined.

(** ** Qualified type names *)

Lemma split_app_sep sep q r :
  split sep (q +:+ String sep r) = split sep q ++ split sep r.
Proof.
  induction q as [|c q IH].
  - simpl. by rewrite Ascii.eqb_refl.
  - rewrite str_app_cons. simpl. destruct (Ascii.eqb c sep); [by rewrite IH|].
    rewrite IH. pose proof (split_not_nil sep q).
    by destruct (split sep q).
Qed.

Lemma split_no_sep sep s : occurs sep s = false → split sep s = [s].
Proof.
  induction s as [|c s IH]; simpl; [done|].
  intros [Hc Hs]%orb_false_iff. rewrite Hc, IH; done.
Qed.

Lemma last_item_qualified sep q n :
  occurs sep n = false → last_item (split sep (q +:+ String sep n)) = n.
Proof.
  intros Hn. unfold last_item.
  by rewrite split_app_sep, (split_no_sep _ _ Hn), List.last_last.
Qed.

(** X14: a type reference is shown by its simple name and the qualifier
    is dropped, whatever it is: for a name without a dot, a message or enum
    field whose type name is that name behind any qualifier has the name as
    type string, and an rpc method shows its request and response types the
    same way.  References to two types of one simple name in different
    packages are rendered alike. *)
Theorem qualifier_dropped (simple : string) :
  occurs "." simple = false →
  (∀ f qualifier,
     field_type f = TYPE_MESSAGE ∨ field_type f = TYPE_ENUM →
     field_type_name f = qualifier +:+ String "." simple →
     extract_field_type_str f = inr simple) ∧
  (∀ level m q_in q_out other,
     occurs "." other = false →
     input_type m = q_in +:+ String "." simple →
     output_type m = q_out +:+ String "." other →
     generate_rpc_method level m =
       (level +:+ "rpc " +:+ method_name m +:+ " ("
          +:+ (if client_streaming m then "stream " else EmptyString)
          +:+ simple +:+ ") returns ("
          +:+ (if server_streaming m then "stream " else EmptyString)
          +:+ other +:+ ");" +:+ nl,
        inr tt)).
Proof.
  intros Hsimple. split.
  - intros f qualifier Hkind Hname.
    rewrite (extract_field_type_str_named _ Hkind), Hname.
    by rewrite last_item_qualified.
  - intros level m q_in q_out other Hother Hin Hout.
    unfold generate_rpc_method. rewrite Hin, Hout.
    by rewrite !last_item_qualified.
Qed.

Lemma qualifier_dropped_witness :
  extract_field_type_str
    {| field_name := "level"; field_number := 2; field_type := TYPE_ENUM;
       field_type_name := ".common" +:+ String "." "Level"; field_label := 1;
       field_options := {| packed := false |} |}
  = inr "Level".
Proof.
  apply (proj1 (qualifier_dropped "Level" eq_refl) _ ".common").
  - by right.
  - reflexivity.
Defined.

(** ** Coming to a group field *)







Section GroupFields.

Variable ParseFromString : bytes -> option FileDescriptorProto.
Variable text_format : FileDescriptorProto -> string.

Local Abbreviation gen_file := (generate_file ParseFromString text_format).


End GroupFields.



(** A group field inside a nested message, behind a map entry and a
    declared nested message. *)
Example deep_group_reached :
  group_reached deep_group_message EmptyString
    ("message Outer" +:+ nl +:+ "{" +:+ nl +:+
     "  message Plain" +:+ nl +:+ "  {" +:+ nl +:+
     "    bool x = 1;" +:+ nl +:+ "  }" +:+ nl +:+
     "  message Inner" +:+ nl +:+ "  {" +:+ nl +:+
     "    int32 id = 1;" +:+ nl).
Proof.
  pose proof (group_reached_nested "Outer" [scalar_field "after" 9 TYPE_STRING 1]
                [counts_entry;
                 mkDescriptorProto "Plain" [scalar_field "x" 1 TYPE_BOOL 1] [] []
                   {| map_entry := false |}]
                (mkDescriptorProto "Inner"
                   ([scalar_field "id" 1 TYPE_INT32 1]
                      ++ scalar_field "payload" 2 TYPE_GROUP 1 :: [])
                   [] [] {| map_entry := false |})
                [] [] {| map_entry := false |} EmptyString) as Hnested.
  eapply eq_ind; [eapply Hnested|].
  - by vm_compute.
  - reflexivity.
  - by apply (group_reached_field _ _ _ _ [] [] _ _ EmptyString ∅).
  - by vm_compute.
Qed.
